(** * ffigen: the type mapper, the typedef resolver and the function
      signature builder of [ffigen.ts], embedded and verified.

    The program reads a list of c2ffi definitions and walks it once.  Its
    state is the resolved-typedef table, the symbol table, four counters,
    the tally of unknown tags and the lines written to the diagnostic
    stream.  An uncaught exception ends the run; it is the [Throw] case of
    the result type below. *)

From Stdlib Require Import Ascii String List ZArith Bool Lia.
From stdpp Require Import base option strings list gmap.

Set Warnings "-register-all".
Local Open Scope string_scope.
Local Open Scope Z_scope.

(** ** Data model *)

(** [Type] of the source: a tag, the optional field list and the optional
    nested type.  The bit size and the bit alignment are never read. *)
Inductive Type_ : Type :=
  MkType { tag : string; fields : option (list Type_); type_ : option Type_ }.

(** [Parameter] of the source. *)
Record Param : Type :=
  MkParam { p_tag : string; p_name : string; p_type : Type_ }.

(** [Definition] of the source, by its [tag].  A struct record carries the
    field list that c2ffi gives it; [Unknown] is any other tag, which the
    loop sends to its [default] branch. *)
Inductive Def : Type :=
| Typedef (name location : string) (type : Type_)
| StructDef (name location : string) (fields : option (list Type_))
| Function (name location : string) (variadic inline : bool)
    (parameters : list Param) (return_type : Type_)
| Unknown (tag : string).

(** The functions that an object literal inherits from [Object.prototype]
    in Deno, which has no [__proto__] accessor there: [Object] itself under
    the key [constructor], and ten methods. *)
Inductive ObjectPrototypeMember : Type :=
| Object_constructor
| defineGetter | defineSetter | lookupGetter | lookupSetter
| hasOwnProperty | isPrototypeOf | propertyIsEnumerable
| toLocaleString | toString | valueOf.

(** What the type mapper returns when it does not return [null]:
    [Deno.NativeResultType], that is the strings of the native vocabulary
    and the aggregate [{ struct: [...] }], and, since [tagMapping] is
    indexed as a plain object, a function it inherits. *)
Inductive NativeResultType : Type :=
| u8 | i8 | u16 | i16 | u32 | i32 | u64 | i64 | f64 | pointer | void
| Struct (components : list NativeResultType)
| Inherited (member : ObjectPrototypeMember).

(** What the program throws: the two [Error]s of [denoFFIParameter], and
    the [TypeError] of reading [.tag] of [undefined], which is what
    [denoFFIType(f.type)] does on a field that has no nested type. *)
Inductive Error : Type :=
| UnexpectedParameterTag (tag : string)
| UnexpectedVoidParameter (name : string)
| TypeError.

Inductive Result (A : Type) : Type :=
| Ok (a : A)
| Throw (e : Error).
Arguments Ok {A} a.
Arguments Throw {A} e.

#[global] Instance Result_ret : MRet Result := @Ok.
#[global] Instance Result_bind : MBind Result := fun A B f m =>
  match m with Ok a => f a | Throw e => Throw e end.

(** ** The fixed primitive table *)

(** The entries that the object literal [tagMapping] lists, its own
    properties. *)
Definition tagMapping_own (t : string) : option NativeResultType :=
  if String.eqb t "__uint16_t" then Some u16
  else if String.eqb t "__uint32_t" then Some u32
  else if String.eqb t "__uint64_t" then Some u64
  else if String.eqb t "__uint8_t" then Some u8
  else if String.eqb t "__int16_t" then Some i16
  else if String.eqb t "__int32_t" then Some i32
  else if String.eqb t "__int64_t" then Some i64
  else if String.eqb t "__int8_t" then Some i8
  else if String.eqb t ":int" then Some i32
  else if String.eqb t ":unsigned-int" then Some u32
  else if String.eqb t ":long" then Some i64
  else if String.eqb t ":long-long" then Some i64
  else if String.eqb t ":long-double" then Some f64
  else if String.eqb t ":short" then Some i16
  else if String.eqb t ":unsigned" then Some u32
  else if String.eqb t ":unsigned-long" then Some u64
  else if String.eqb t ":unsigned-short" then Some u16
  else if String.eqb t ":unsigned-char" then Some u8
  else if String.eqb t ":char" then Some u8
  else if String.eqb t ":pointer" then Some pointer
  else if String.eqb t ":function-pointer" then Some pointer
  else if String.eqb t ":void" then Some void
  else None.

(** The key under which [Object.prototype] holds a function. *)
Definition inherited (t : string) : option ObjectPrototypeMember :=
  if String.eqb t "constructor" then Some Object_constructor
  else if String.eqb t "__defineGetter__" then Some defineGetter
  else if String.eqb t "__defineSetter__" then Some defineSetter
  else if String.eqb t "__lookupGetter__" then Some lookupGetter
  else if String.eqb t "__lookupSetter__" then Some lookupSetter
  else if String.eqb t "hasOwnProperty" then Some hasOwnProperty
  else if String.eqb t "isPrototypeOf" then Some isPrototypeOf
  else if String.eqb t "propertyIsEnumerable" then Some propertyIsEnumerable
  else if String.eqb t "toLocaleString" then Some toLocaleString
  else if String.eqb t "toString" then Some toString
  else if String.eqb t "valueOf" then Some valueOf
  else None.

(** [tagMapping[t]]: the own entry of the object literal, else the member
    it inherits under that key; [None] is [undefined]. *)
Definition tagMapping (t : string) : option NativeResultType :=
  match tagMapping_own t with
  | Some v => Some v
  | None => Inherited <$> inherited t
  end.

(** ** The type mapper *)

(** [t.tag === ":struct" || t.tag === "struct"] *)
Definition is_struct_tag (t : string) : bool :=
  String.eqb t ":struct" || String.eqb t "struct".

(** [fields.includes(null)] *)
Definition includes_null {A} (l : list (option A)) : bool :=
  existsb (fun o => match o with None => true | Some _ => false end) l.

(** [fields.indexOf(null)], read only where [includes_null] holds. *)
Fixpoint indexOf_null {A} (l : list (option A)) : nat :=
  match l with
  | [] => 0%nat
  | None :: _ => 0%nat
  | Some _ :: l' => S (indexOf_null l')
  end.

(** The cast [fields as Deno.NativeType[]], made after the null check. *)
Definition as_native {A} (l : list (option A)) : list A := omap id l.

(** [denoFFIType(t)]: the value it returns, [None] for [null].  The table
    [resolvedTypeDefs] is the module-level map the source reads. *)
Fixpoint denoFFIType (resolvedTypeDefs : gmap string NativeResultType)
    (t : Type_) : Result (option NativeResultType) :=
  match t with
  | MkType tg fs _ =>
      if is_struct_tag tg then
        match fs with
        | None => Ok None
        | Some fs =>
            fields ← mapM (fun f =>
                match f with
                | MkType _ _ (Some ft) => denoFFIType resolvedTypeDefs ft
                | MkType _ _ None => Throw TypeError
                end) fs;
            if includes_null fields then Ok None
            else Ok (Some (Struct (as_native fields)))
        end
      else
        Ok (match tagMapping tg with
            | Some v => Some v
            | None => resolvedTypeDefs !! tg
            end)
  end.

(** The callback [(f) => denoFFIType(f.type)] of the map over the fields:
    on a field without a nested type it reads [undefined.tag]. *)
Definition denoFFIField (resolvedTypeDefs : gmap string NativeResultType)
    (f : Type_) : Result (option NativeResultType) :=
  match type_ f with
  | Some ft => denoFFIType resolvedTypeDefs ft
  | None => Throw TypeError
  end.

(** [denoFFIParameter(p)] *)
Definition denoFFIParameter (resolvedTypeDefs : gmap string NativeResultType)
    (p : Param) : Result (option NativeResultType) :=
  if negb (String.eqb (p_tag p) "parameter") then
    Throw (UnexpectedParameterTag (p_tag p))
  else
    ty ← denoFFIType resolvedTypeDefs (p_type p);
    match ty with
    | Some void => Throw (UnexpectedVoidParameter (p_name p))
    | _ => Ok ty
    end.

(** ** The diagnostic stream *)

(** One constructor per [console.error] line of the mapping engine; the
    text of a line is formatting and is not modelled, its content is. *)
Inductive LogEvent : Type :=
| SkipField (who : string) (field : option Type_)
    (* skipping <who>. reason: field <field> has no mapping *)
| SkipFlag (name reason : string)
    (* skipping <name>. reason: <inline|variadic> *)
| SkipParameter (name : string) (parameter : option Param)
    (* skipping <name>. reason: parameter <parameter> has no mapping *)
| SkipReturn (name : string) (return_type : Type_)
    (* skipping <name>. reason: return type <type> has no mapping *)
| UnknownTag (tag : string).
    (* unknown tag <tag> *)

(** [hint || "struct"]: an absent or empty hint gives ["struct"]. *)
Definition hint_or_struct (hint : option string) : string :=
  match hint with
  | Some h => if String.eqb h "" then "struct" else h
  | None => "struct"
  end.

(** The lines [denoFFIType(t, hint)] writes before it returns: those of
    the nested calls on the fields, which get no hint, then its own line
    when a field is unmapped. *)
Fixpoint denoFFIType_log (resolvedTypeDefs : gmap string NativeResultType)
    (hint : option string) (t : Type_) : list LogEvent :=
  match t with
  | MkType tg fs _ =>
      if is_struct_tag tg then
        match fs with
        | None => []
        | Some fs =>
            flat_map (fun f =>
                match f with
                | MkType _ _ (Some ft) => denoFFIType_log resolvedTypeDefs None ft
                | MkType _ _ None => []
                end) fs
            ++ match mapM (denoFFIField resolvedTypeDefs) fs with
               | Ok fields =>
                   if includes_null fields
                   then [SkipField (hint_or_struct hint) (fs !! indexOf_null fields)]
                   else []
               | Throw _ => []
               end
        end
      else []
  end.

(** ** The state of the run *)

(** An entry of [symbolSource]. *)
Record ForeignFunction : Type :=
  MkForeignFunction {
    parameters : list NativeResultType;
    result : NativeResultType;
    doc : string }.

Record State : Type :=
  MkState {
    resolvedTypeDefs : gmap string NativeResultType;
    symbolSource : gmap string ForeignFunction;
    total : Z;
    generated : Z;
    totalTypeDefs : Z;
    generatedTypeDefs : Z;
    unknowns : gmap string Z;
    log : list LogEvent }.

Definition initial : State :=
  MkState ∅ ∅ 0 0 0 0 ∅ [].

Definition set_resolved (k : string) (v : NativeResultType) (s : State) : State :=
  MkState (<[k := v]> (resolvedTypeDefs s)) (symbolSource s) (total s)
    (generated s) (totalTypeDefs s) (generatedTypeDefs s) (unknowns s) (log s).

Definition set_symbol (k : string) (v : ForeignFunction) (s : State) : State :=
  MkState (resolvedTypeDefs s) (<[k := v]> (symbolSource s)) (total s)
    (generated s) (totalTypeDefs s) (generatedTypeDefs s) (unknowns s) (log s).

Definition incr_total (s : State) : State :=
  MkState (resolvedTypeDefs s) (symbolSource s) (total s + 1)
    (generated s) (totalTypeDefs s) (generatedTypeDefs s) (unknowns s) (log s).

Definition incr_generated (s : State) : State :=
  MkState (resolvedTypeDefs s) (symbolSource s) (total s)
    (generated s + 1) (totalTypeDefs s) (generatedTypeDefs s) (unknowns s) (log s).

Definition incr_totalTypeDefs (s : State) : State :=
  MkState (resolvedTypeDefs s) (symbolSource s) (total s)
    (generated s) (totalTypeDefs s + 1) (generatedTypeDefs s) (unknowns s) (log s).

Definition incr_generatedTypeDefs (s : State) : State :=
  MkState (resolvedTypeDefs s) (symbolSource s) (total s)
    (generated s) (totalTypeDefs s) (generatedTypeDefs s + 1) (unknowns s) (log s).

Definition count_unknown (t : string) (s : State) : State :=
  MkState (resolvedTypeDefs s) (symbolSource s) (total s)
    (generated s) (totalTypeDefs s) (generatedTypeDefs s)
    (<[t := default 0 (unknowns s !! t) + 1]> (unknowns s)) (log s).

Definition console_error (l : list LogEvent) (s : State) : State :=
  MkState (resolvedTypeDefs s) (symbolSource s) (total s)
    (generated s) (totalTypeDefs s) (generatedTypeDefs s) (unknowns s) (log s ++ l).

(** ** The loop over the definitions *)

(** The inner loop [for (const y of symbols)] of the typedef case, run when
    the direct mapping gave [null].  [xname] is [x.name], [xtag] is
    [x.type.tag]; the accumulator is the variable [result].  Every matching
    typedef is tried, none ends the loop: a mapped one is written to the
    table at once, an unmapped one leaves [result] at [null]. *)
Fixpoint lookahead (ys : list Def) (xname xtag : string)
    (s : State) (res : option NativeResultType)
    : Result (State * option NativeResultType) :=
  match ys with
  | [] => Ok (s, res)
  | Typedef yname _ ytype :: ys' =>
      if String.eqb yname xtag then
        r ← denoFFIType (resolvedTypeDefs s) ytype;
        let s := console_error (denoFFIType_log (resolvedTypeDefs s) (Some xname) ytype) s in
        match r with
        | None => lookahead ys' xname xtag s None
        | Some v => lookahead ys' xname xtag (set_resolved xname v s) (Some v)
        end
      else lookahead ys' xname xtag s res
  | _ :: ys' => lookahead ys' xname xtag s res
  end.

(** [case "typedef"], on the name and the type of [x]. *)
Definition typedef_case (symbols : list Def) (xname : string) (xtype : Type_)
    (s : State) : Result State :=
  let s := incr_totalTypeDefs s in
  r ← denoFFIType (resolvedTypeDefs s) xtype;
  let s := console_error (denoFFIType_log (resolvedTypeDefs s) (Some xname) xtype) s in
  '(s, r) ← match r with
            | Some v => Ok (s, Some v)
            | None => lookahead symbols xname (tag xtype) s None
            end;
  match r with
  | None => Ok s
  | Some v => Ok (incr_generatedTypeDefs (set_resolved xname v s))
  end.

(** [case "struct"]: [x.type = x], after which [x.type.tag] is ["struct"]
    and [x.type.fields] the struct's own field list; the mapper reads
    nothing else of its argument.  Control then falls into the typedef
    case. *)
Definition struct_as_type (fs : option (list Type_)) : Type_ :=
  MkType "struct" fs None.

(** [case "function"] *)
Definition function_case (name location : string) (variadic inline : bool)
    (params : list Param) (return_type : Type_) (s : State) : Result State :=
  let s := incr_total s in
  if inline || variadic then
    Ok (console_error [SkipFlag name (if inline then "inline" else "variadic")] s)
  else
    ps ← mapM (denoFFIParameter (resolvedTypeDefs s)) params;
    let s := console_error
               (flat_map (fun p => denoFFIType_log (resolvedTypeDefs s) None (p_type p)) params) s in
    if includes_null ps then
      Ok (console_error [SkipParameter name (params !! indexOf_null ps)] s)
    else
      r ← denoFFIType (resolvedTypeDefs s) return_type;
      let s := console_error (denoFFIType_log (resolvedTypeDefs s) None return_type) s in
      match r with
      | None => Ok (console_error [SkipReturn name return_type] s)
      | Some v =>
          Ok (incr_generated
                (set_symbol name
                   (MkForeignFunction (as_native ps) v (name ++ " @ " ++ location)) s))
      end.

(** The body of [for (const x of symbols)]. *)
Definition step (symbols : list Def) (x : Def) (s : State) : Result State :=
  match x with
  | StructDef name _ fs => typedef_case symbols name (struct_as_type fs) s
  | Typedef name _ ty => typedef_case symbols name ty s
  | Function name location variadic inline params ret =>
      function_case name location variadic inline params ret s
  | Unknown t => Ok (console_error [UnknownTag t] (count_unknown t s))
  end.

(** The loop from state [s] over the definitions [xs] that remain;
    [symbols] stays the whole input, which the lookahead scans. *)
Fixpoint run_from (symbols : list Def) (s : State) (xs : list Def) : Result State :=
  match xs with
  | [] => Ok s
  | x :: xs' => s' ← step symbols x s; run_from symbols s' xs'
  end.

(** The whole pass. *)
Definition run (symbols : list Def) : Result State :=
  run_from symbols initial symbols.

(** The [skipped] figure of the summary line for functions. *)
Definition skipped (s : State) : Z := total s - generated s.

(** The number of entries the artifact lists: [Object.entries(symbolSource)]. *)
Definition emitted (s : State) : nat := size (symbolSource s).

(** ** Inputs the mapper can read without a [TypeError] *)

(** Every field of every field list that the mapper reads carries a nested
    type. *)
Fixpoint fields_typed (t : Type_) : bool :=
  match t with
  | MkType tg fs _ =>
      if is_struct_tag tg then
        match fs with
        | None => true
        | Some fs =>
            forallb (fun f =>
                match f with
                | MkType _ _ (Some ft) => fields_typed ft
                | MkType _ _ None => false
                end) fs
        end
      else true
  end.

Definition def_typed (d : Def) : bool :=
  match d with
  | Typedef _ _ ty => fields_typed ty
  | StructDef _ _ fs => fields_typed (struct_as_type fs)
  | Function _ _ _ _ params ret =>
      forallb (fun p => fields_typed (p_type p)) params && fields_typed ret
  | Unknown _ => true
  end.

(** The test [y.tag === "typedef" && y.name === n] of the lookahead. *)
Definition typedef_named (n : string) (y : Def) : bool :=
  match y with
  | Typedef m _ _ => String.eqb m n
  | _ => false
  end.

(** The key under which the loop can write the table when it handles [x]:
    [x.name] of a typedef or a struct. *)
Definition table_key (x : Def) : option string :=
  match x with
  | Typedef n _ _ | StructDef n _ _ => Some n
  | _ => None
  end.

(** The two conditions under which [denoFFIParameter] throws on purpose. *)
Definition fatal_parameter (tbl : gmap string NativeResultType) (p : Param) : Prop :=
  p_tag p ≠ "parameter" ∨ denoFFIType tbl (p_type p) = Ok (Some void).

(** ** Examples used below *)

(** A type that is only a tag, and a field record around a type. *)
Definition ty (t : string) : Type_ := MkType t None None.
Definition field (t : Type_) : Type_ := MkType "field" None (Some t).

(** ** The summary and the artifact *)

(** The [skipped] figure of the summary line for typedefs. *)
Definition skippedTypeDefs (s : State) : Z :=
  totalTypeDefs s - generatedTypeDefs s.

(** The double quote and the line feed. *)
Definition dquote : string := String "034"%char EmptyString.
Definition newline : string := String "010"%char EmptyString.

(** The [name] of an inherited function. *)
Definition member_name (m : ObjectPrototypeMember) : string :=
  match m with
  | Object_constructor => "Object"
  | defineGetter => "__defineGetter__"
  | defineSetter => "__defineSetter__"
  | lookupGetter => "__lookupGetter__"
  | lookupSetter => "__lookupSetter__"
  | hasOwnProperty => "hasOwnProperty"
  | isPrototypeOf => "isPrototypeOf"
  | propertyIsEnumerable => "propertyIsEnumerable"
  | toLocaleString => "toLocaleString"
  | toString => "toString"
  | valueOf => "valueOf"
  end.

(** A value inside a template literal, [`${result}`]: a string is itself,
    the aggregate object is ["[object Object]"], a built-in function is
    its source text. *)
Definition template (v : NativeResultType) : string :=
  match v with
  | u8 => "u8" | i8 => "i8" | u16 => "u16" | i16 => "i16"
  | u32 => "u32" | i32 => "i32" | u64 => "u64" | i64 => "i64"
  | f64 => "f64" | pointer => "pointer" | void => "void"
  | Struct _ => "[object Object]"
  | Inherited m => "function " ++ member_name m ++ "() { [native code] }"
  end.

(** [JSON.stringify] of a value as an element of an array: a string in
    double quotes (none of the names needs an escape), the aggregate as the
    object [{"struct":[...]}], a function as [null]; an array as its
    elements between brackets, with commas and no blanks. *)
Fixpoint JSON_stringify (v : NativeResultType) : string :=
  match v with
  | Struct l =>
      "{" ++ dquote ++ "struct" ++ dquote ++ ":"
      ++ "[" ++ String.concat "," (map JSON_stringify l) ++ "]" ++ "}"
  | Inherited _ => "null"
  | _ => dquote ++ template v ++ dquote
  end.

Definition JSON_stringify_array (l : list NativeResultType) : string :=
  "[" ++ String.concat "," (map JSON_stringify l) ++ "]".

(** A value of the native vocabulary: no inherited function in it. *)
Fixpoint native (v : NativeResultType) : bool :=
  match v with
  | Struct l => forallb native l
  | Inherited _ => false
  | _ => true
  end.

(** A value with every inherited function in it replaced by one and the
    same. *)
Fixpoint forget (v : NativeResultType) : NativeResultType :=
  match v with
  | Struct l => Struct (map forget l)
  | Inherited _ => Inherited Object_constructor
  | _ => v
  end.

(** The text of the elements of an array after the first one, each behind
    its comma, up to the closing bracket and the text [r] that follows. *)
Abbreviation JSON_rest xs r :=
  (fold_right (λ x acc, "," ++ JSON_stringify x ++ acc) ("]" ++ r) xs).

(** The text of one entry of [Object.entries(symbolSource)] in the
    artifact. *)
Definition render_entry (name : string) (f : ForeignFunction) : string :=
  "  // " ++ doc f ++ newline
  ++ "  " ++ name ++ ": {" ++ newline
  ++ "    parameters: " ++ JSON_stringify_array (parameters f) ++ "," ++ newline
  ++ "    result: " ++ dquote ++ template (result f) ++ dquote ++ "," ++ newline
  ++ "  }".

(** The name and the type with which a definition enters the typedef
    case, if it does. *)
Definition as_typedef (x : Def) : option (string * Type_) :=
  match x with
  | Typedef n _ t => Some (n, t)
  | StructDef n _ fs => Some (n, struct_as_type fs)
  | _ => None
  end.

(** ** Counting the definitions of an input *)

Fixpoint count (p : Def → bool) (xs : list Def) : Z :=
  match xs with
  | [] => 0
  | x :: xs' => (if p x then 1 else 0) + count p xs'
  end.

Definition is_function (d : Def) : bool :=
  match d with
  | Function _ _ _ _ _ _ => true
  | _ => false
  end.

Definition is_typedef_or_struct (d : Def) : bool :=
  match d with
  | Typedef _ _ _ | StructDef _ _ _ => true
  | _ => false
  end.

Definition is_unknown (t : string) (d : Def) : bool :=
  match d with
  | Unknown u => String.eqb u t
  | _ => false
  end.

(** * Properties *)

(** ** The result monad and the map over a list *)

Section MapM.
Context {A B : Type} (f : A → Result B).

Lemma mapM_nil : mapM f [] = Ok [].
Proof. reflexivity. Qed.

Lemma mapM_cons x l :
  mapM f (x :: l) = y ← f x; k ← mapM f l; Ok (y :: k).
Proof. reflexivity. Qed.

Lemma mapM_Result_ext (g : A → Result B) l :
  (∀ x, f x = g x) → mapM f l = mapM g l.
Proof.
  intros E. induction l as [|x l IH]; [reflexivity|].
  now rewrite !mapM_cons, E, IH.
Qed.

Lemma mapM_Ok_Forall2 l k :
  mapM f l = Ok k ↔ Forall2 (λ x y, f x = Ok y) l k.
Proof.
  revert k. induction l as [|x l IH]; intros k.
  - cbn. split.
    + intros [= <-]. constructor.
    + intros H. inversion H. reflexivity.
  - rewrite mapM_cons. split.
    + destruct (f x) as [y|e] eqn:Ex; cbn; [|discriminate].
      destruct (mapM f l) as [k'|e] eqn:El; cbn; [|discriminate].
      intros [= <-]. constructor; [exact Ex|]. now apply IH.
    + intros H. inversion H as [|? y ? k' Ex Hl]; subst.
      rewrite Ex. cbn. apply IH in Hl. rewrite Hl. reflexivity.
Qed.

Lemma mapM_Throw_Exists l e :
  mapM f l = Throw e → Exists (λ x, f x = Throw e) l.
Proof.
  induction l as [|x l IH]; [discriminate|].
  rewrite mapM_cons. destruct (f x) as [y|e'] eqn:Ex; cbn.
  - destruct (mapM f l) as [k'|e'] eqn:El; cbn; [discriminate|].
    intros [= ->]. right. now apply IH.
  - intros [= ->]. now left.
Qed.

Lemma mapM_Exists_Throw l :
  Exists (λ x, ∃ e, f x = Throw e) l → ∃ e, mapM f l = Throw e.
Proof.
  induction 1 as [x l [e Ex]|x l _ [e IH]]; rewrite mapM_cons.
  - rewrite Ex. now exists e.
  - destruct (f x) as [y|e']; cbn; [|now exists e'].
    rewrite IH. now exists e.
Qed.
End MapM.

(** ** The null check and the cast *)

Lemma includes_null_Some {A} (ns : list A) :
  includes_null (map Some ns) = false.
Proof. induction ns; [reflexivity|assumption]. Qed.

Lemma as_native_Some {A} (ns : list A) :
  as_native (map Some ns) = ns.
Proof.
  unfold as_native. induction ns as [|n ns IH]; [reflexivity|].
  cbn. now rewrite IH.
Qed.

Lemma includes_null_false {A} (l : list (option A)) :
  includes_null l = false → l = map Some (as_native l).
Proof.
  unfold as_native. induction l as [|[a|] l IH]; cbn; intros H.
  - reflexivity.
  - f_equal. now apply IH.
  - discriminate.
Qed.

Lemma includes_null_true {A} (l : list (option A)) :
  includes_null l = true ↔ None ∈ l.
Proof.
  induction l as [|[a|] l IH]; cbn.
  - split; [discriminate|]. intros H. inversion H.
  - rewrite IH. split; [now right|]. intros H. inversion H; subst; easy.
  - split; [left|reflexivity].
Qed.

Lemma Forall2_Ok_Some {A B} (f : A → Result (option B)) l ns :
  Forall2 (λ x n, f x = Ok (Some n)) l ns →
  Forall2 (λ x y, f x = Ok y) l (map Some ns).
Proof. induction 1; constructor; assumption. Qed.

Lemma Forall2_Ok_None {A B} (f : A → Result (option B)) l k :
  Forall2 (λ x y, f x = Ok y) l k →
  Exists (λ x, f x = Ok None) l → None ∈ k.
Proof.
  induction 1 as [|x y l k Hx Hl IH]; intros E; inversion E; subst.
  - replace y with (@None B) by congruence. left.
  - right. now apply IH.
Qed.

(** ** The type mapper, one level at a time *)

Lemma denoFFIType_unfold tbl t :
  denoFFIType tbl t =
    if is_struct_tag (tag t) then
      match fields t with
      | None => Ok None
      | Some fs =>
          ns ← mapM (denoFFIField tbl) fs;
          if includes_null ns then Ok None
          else Ok (Some (Struct (as_native ns)))
      end
    else
      Ok (match tagMapping (tag t) with
          | Some v => Some v
          | None => tbl !! tag t
          end).
Proof.
  destruct t as [tg [fs|] nested]; cbn [denoFFIType tag fields]; try reflexivity.
  destruct (is_struct_tag tg); [|reflexivity].
  erewrite mapM_Result_ext; [reflexivity|].
  intros [? ? [ft|]]; reflexivity.
Qed.

(** A tag of the fixed table is never one of the two struct tags. *)
Lemma tagMapping_not_struct t v :
  tagMapping t = Some v → is_struct_tag t = false.
Proof.
  unfold is_struct_tag.
  destruct (String.eqb_spec t ":struct") as [->|_]; [discriminate|].
  destruct (String.eqb_spec t "struct") as [->|_]; [discriminate|reflexivity].
Qed.

(** The mapper throws exactly on the types [fields_typed] rejects. *)
Lemma fields_typed_unfold t :
  fields_typed t =
    if is_struct_tag (tag t) then
      match fields t with
      | None => true
      | Some fs =>
          forallb (λ f, match type_ f with
                        | Some ft => fields_typed ft
                        | None => false
                        end) fs
      end
    else true.
Proof.
  destruct t as [tg [fs|] nested]; cbn [fields_typed tag fields]; try reflexivity.
  destruct (is_struct_tag tg); [|reflexivity].
  induction fs as [|[? ? [ft|]] fs IH]; cbn; [reflexivity| |reflexivity].
  now rewrite IH.
Qed.

(** Induction on a type through its fields' nested types. *)
Lemma Type_fields_ind (P : Type_ → Prop) :
  (∀ t, (∀ fs, fields t = Some fs →
           Forall (λ f, ∀ ft, type_ f = Some ft → P ft) fs) → P t) →
  ∀ t, P t.
Proof.
  intros step. fix IH 1. intros [tg fs nested]. apply step. cbn.
  destruct fs as [l|]; [|discriminate].
  assert (Forall (λ f, ∀ ft, type_ f = Some ft → P ft) l) as HF.
  { clear tg nested. revert l.
    fix go 1. intros [|f l]; constructor; [|apply go].
    destruct f as [? ? [ft|]]; cbn; [|discriminate].
    intros ? [= <-]. apply IH. }
  intros ? [= <-]. exact HF.
Qed.

Lemma denoFFIType_typed tbl t :
  fields_typed t = true → ∃ o, denoFFIType tbl t = Ok o.
Proof.
  induction t as [t IH] using Type_fields_ind.
  rewrite fields_typed_unfold, denoFFIType_unfold.
  destruct (is_struct_tag (tag t)); [|eauto].
  destruct (fields t) as [fs|]; [|eauto].
  specialize (IH fs eq_refl). intros W.
  assert (∃ k, mapM (denoFFIField tbl) fs = Ok k) as [k ->].
  { induction fs as [|f fs IHfs]; [now exists []|].
    cbn in W. apply andb_prop in W as [Wf Wfs].
    inversion IH as [|? ? Hf Hfs]; subst.
    destruct (IHfs Hfs Wfs) as [k Ek].
    rewrite mapM_cons, Ek. unfold denoFFIField.
    destruct (type_ f) as [ft|]; [|discriminate].
    destruct (Hf ft eq_refl Wf) as [o ->]. cbn. eauto. }
  cbn. destruct (includes_null k); eauto.
Qed.

Lemma denoFFIField_typed tbl f ft :
  type_ f = Some ft → fields_typed ft = true → ∃ o, denoFFIField tbl f = Ok o.
Proof. unfold denoFFIField. intros -> W. now apply denoFFIType_typed. Qed.

(** ** The type mapper *)

Section TypeMapper.
Variable tbl : gmap string NativeResultType.

Lemma denoFFIType_struct_fields t fs k :
  is_struct_tag (tag t) = true → fields t = Some fs →
  mapM (denoFFIField tbl) fs = Ok k →
  denoFFIType tbl t =
    if includes_null k then Ok None else Ok (Some (Struct (as_native k))).
Proof.
  intros Hs Hf Hk. now rewrite denoFFIType_unfold, Hs, Hf, Hk.
Qed.

Lemma denoFFIType_fields_Ok t fs o :
  is_struct_tag (tag t) = true → fields t = Some fs →
  denoFFIType tbl t = Ok o →
  ∃ k, mapM (denoFFIField tbl) fs = Ok k.
Proof.
  intros Hs Hf. rewrite denoFFIType_unfold, Hs, Hf.
  destruct (mapM (denoFFIField tbl) fs) as [k|e]; [eauto|discriminate].
Qed.

(** A native result on a struct type is the aggregate of all the fields. *)
Lemma denoFFIType_struct_Some t fs r :
  is_struct_tag (tag t) = true → fields t = Some fs →
  denoFFIType tbl t = Ok (Some r) →
  ∃ ns, r = Struct ns ∧
        Forall2 (λ f n, denoFFIField tbl f = Ok (Some n)) fs ns.
Proof.
  intros Hs Hf Hr.
  destruct (denoFFIType_fields_Ok t fs _ Hs Hf Hr) as [k Hk].
  rewrite (denoFFIType_struct_fields t fs k Hs Hf Hk) in Hr.
  destruct (includes_null k) eqn:Hn; [discriminate|].
  injection Hr as <-. exists (as_native k). split; [reflexivity|].
  apply includes_null_false in Hn. apply mapM_Ok_Forall2 in Hk.
  rewrite Hn in Hk. revert Hk. generalize (as_native k) as ns.
  clear. intros ns. revert ns.
  induction fs as [|f fs IH]; intros [|n ns] H; inversion H; subst;
    constructor; auto.
Qed.

(** C1, as amended: on a struct type without a field list the mapper
    returns unmapped.  With a field list: if every field's nested type
    maps, the result is the aggregate of the fields' native types in field
    order; if some field is unmapped and every field that is read carries
    a nested type, the result is unmapped; and whenever the result is a
    native type, it is the aggregate of all the fields' native types, so
    no partial aggregate is produced. *)
Theorem struct_all_or_nothing t :
  is_struct_tag (tag t) = true →
  (fields t = None → denoFFIType tbl t = Ok None) ∧
  (∀ fs, fields t = Some fs →
     (∀ ns, Forall2 (λ f n, denoFFIField tbl f = Ok (Some n)) fs ns →
            denoFFIType tbl t = Ok (Some (Struct ns))) ∧
     (fields_typed t = true →
      Exists (λ f, denoFFIField tbl f = Ok None) fs →
      denoFFIType tbl t = Ok None) ∧
     (∀ r, denoFFIType tbl t = Ok (Some r) →
           ∃ ns, r = Struct ns ∧
                 Forall2 (λ f n, denoFFIField tbl f = Ok (Some n)) fs ns)).
Proof.
  intros Hs. split.
  - intros Hf. now rewrite denoFFIType_unfold, Hs, Hf.
  - intros fs Hf. repeat split.
    + intros ns Hall.
      apply Forall2_Ok_Some, mapM_Ok_Forall2 in Hall.
      rewrite (denoFFIType_struct_fields t fs _ Hs Hf Hall).
      now rewrite includes_null_Some, as_native_Some.
    + intros W Hex.
      destruct (denoFFIType_typed tbl t W) as [o Ho].
      destruct (denoFFIType_fields_Ok t fs o Hs Hf Ho) as [k Hk].
      rewrite (denoFFIType_struct_fields t fs k Hs Hf Hk).
      apply mapM_Ok_Forall2 in Hk.
      pose proof (Forall2_Ok_None _ _ _ Hk Hex) as Hin.
      apply includes_null_true in Hin. now rewrite Hin.
    + intros r Hr. now apply (denoFFIType_struct_Some t).
Qed.

(** What indexing the fixed table gives, an own entry or an inherited
    function, is what the mapper returns, whatever the resolved-typedef
    table holds, also for that very tag; a tag that is no struct tag, for
    which the fixed table gives nothing and that the resolved-typedef table
    does not bind, is unmapped, which is a returned value and not a
    throw. *)
Theorem fixed_table_first t :
  (∀ v, tagMapping (tag t) = Some v → denoFFIType tbl t = Ok (Some v)) ∧
  (is_struct_tag (tag t) = false → tagMapping (tag t) = None →
   tbl !! tag t = None → denoFFIType tbl t = Ok None).
Proof.
  split.
  - intros v Hv. rewrite denoFFIType_unfold.
    now rewrite (tagMapping_not_struct _ _ Hv), Hv.
  - intros Hs Hm Hr. now rewrite denoFFIType_unfold, Hs, Hm, Hr.
Qed.

(** C7: the code at the tags on which it departs from the claim.  None of
    the eleven keys under which [Object.prototype] holds a function is
    listed in the fixed table or is a struct tag, yet for each of them the
    mapper returns, in every state of the resolved-typedef table, also the
    empty one and one that binds the key, the inherited function and not
    unmapped; so [typedef constructor ctor_t;] is registered and counted as
    generated with the function [Object] as its type. *)
Theorem inherited_member_returned :
  Forall (λ km : string * ObjectPrototypeMember,
            tagMapping_own km.1 = None ∧
            is_struct_tag km.1 = false ∧
            ∀ tbl fs nested,
              denoFFIType tbl (MkType km.1 fs nested) = Ok (Some (Inherited km.2)))
    [("constructor", Object_constructor);
     ("__defineGetter__", defineGetter); ("__defineSetter__", defineSetter);
     ("__lookupGetter__", lookupGetter); ("__lookupSetter__", lookupSetter);
     ("hasOwnProperty", hasOwnProperty); ("isPrototypeOf", isPrototypeOf);
     ("propertyIsEnumerable", propertyIsEnumerable);
     ("toLocaleString", toLocaleString); ("toString", toString);
     ("valueOf", valueOf)] ∧
  denoFFIType ∅ (ty "constructor") ≠ Ok None ∧
  denoFFIType {["constructor" := i32]} (ty "constructor")
    = Ok (Some (Inherited Object_constructor)) ∧
  (∃ s, run [Typedef "ctor_t" "a.h:1" (ty "constructor")] = Ok s ∧
        resolvedTypeDefs s !! "ctor_t" = Some (Inherited Object_constructor) ∧
        generatedTypeDefs s = 1).
Proof.
  split; [|split; [discriminate|split; [reflexivity|]]].
  - repeat constructor; intros; now rewrite denoFFIType_unfold.
  - eexists. repeat split; reflexivity.
Qed.

(** C10: plain [char] maps to [u8], as [unsigned char] does, and not to
    [i8]; so does a parameter, a struct field and a return type of plain
    [char], whatever else the type record carries. *)
Theorem plain_char_is_u8 fs nested pname ftag ffs :
  tagMapping ":char" = Some u8 ∧
  tagMapping ":char" = tagMapping ":unsigned-char" ∧
  tagMapping ":char" ≠ Some i8 ∧
  denoFFIType tbl (MkType ":char" fs nested) = Ok (Some u8) ∧
  denoFFIParameter tbl (MkParam "parameter" pname (MkType ":char" fs nested))
    = Ok (Some u8) ∧
  denoFFIField tbl (MkType ftag ffs (Some (MkType ":char" fs nested)))
    = Ok (Some u8).
Proof.
  assert (denoFFIType tbl (MkType ":char" fs nested) = Ok (Some u8)) as E
    by now rewrite denoFFIType_unfold.
  repeat split; try reflexivity; try exact E; discriminate.
Qed.
End TypeMapper.

(** C1, witness: a struct of an [int] and a [char] field, and one whose
    second field is of an unknown type. *)
Lemma struct_all_or_nothing_witness :
  denoFFIType ∅ (MkType "struct" (Some [field (ty ":int"); field (ty ":char")]) None)
    = Ok (Some (Struct [i32; u8])) ∧
  denoFFIType ∅ (MkType "struct" (Some [field (ty ":int"); field (ty "size_t")]) None)
    = Ok None.
Proof.
  split.
  - destruct (struct_all_or_nothing ∅
                (MkType "struct" (Some [field (ty ":int"); field (ty ":char")]) None)
                eq_refl) as [_ H].
    destruct (H _ eq_refl) as (Hall & _ & _).
    apply Hall. repeat constructor.
  - destruct (struct_all_or_nothing ∅
                (MkType "struct" (Some [field (ty ":int"); field (ty "size_t")]) None)
                eq_refl) as [_ H].
    destruct (H _ eq_refl) as (_ & Hsome & _).
    apply Hsome; [reflexivity|]. right. left. reflexivity.
Defined.

(** C1, as stated, fails: a field of an unknown type fails to map, yet the
    mapper does not return unmapped, it throws on the next field, which has
    no nested type. *)
Lemma struct_unmapped_field_throws :
  let fs := [field (ty "size_t"); MkType "field" None None] in
  let t := MkType "struct" (Some fs) None in
  is_struct_tag (tag t) = true ∧ fields t = Some fs ∧
  Exists (λ f, denoFFIField ∅ f = Ok None) fs ∧
  denoFFIType ∅ t = Throw TypeError ∧
  denoFFIType ∅ t ≠ Ok None.
Proof.
  cbv zeta. repeat split.
  - left. reflexivity.
  - discriminate.
Qed.

(** The field list is a list of field records, not of types: a field that
    is itself a mappable type, with nothing under [type], throws as well. *)
Lemma struct_of_bare_types_throws :
  denoFFIType ∅ (ty ":int") = Ok (Some i32) ∧
  denoFFIType ∅ (MkType "struct" (Some [ty ":int"]) None) = Throw TypeError.
Proof. split; reflexivity. Qed.

(** ["__uint32_t"] maps to [u32] although the table binds it to [i8];
    ["my_t"] is unmapped in the empty table. *)
Lemma fixed_table_first_witness :
  denoFFIType {["__uint32_t" := i8]} (ty "__uint32_t") = Ok (Some u32) ∧
  denoFFIType ∅ (ty "my_t") = Ok None.
Proof.
  split.
  - destruct (fixed_table_first {["__uint32_t" := i8]} (ty "__uint32_t"))
      as [H _].
    apply H. reflexivity.
  - destruct (fixed_table_first ∅ (ty "my_t")) as [_ H].
    apply H; reflexivity.
Defined.

(** ** The typedef resolver *)

Section Lookahead.
Variables xname xtag : string.

Lemma lookahead_skip ys s res :
  Forall (λ y, typedef_named xtag y = false) ys →
  lookahead ys xname xtag s res = Ok (s, res).
Proof.
  induction 1 as [|y ys Hy _ IH]; [reflexivity|].
  destruct y; cbn in *; try exact IH. now rewrite Hy.
Qed.

Lemma lookahead_app ys zs s res :
  lookahead (ys ++ zs) xname xtag s res =
    p ← lookahead ys xname xtag s res;
    lookahead zs xname xtag p.1 p.2.
Proof.
  revert s res. induction ys as [|y ys IH]; intros s res; [reflexivity|].
  destruct y as [yname yloc ytype| | |]; cbn [app lookahead]; try apply IH.
  destruct (yname =? xtag)%string; [|apply IH].
  destruct (denoFFIType (resolvedTypeDefs s) ytype) as [[v|]|e]; cbn;
    [apply IH|apply IH|reflexivity].
Qed.

(** The lookahead when one typedef of the wanted name is in the list. *)
Lemma lookahead_unique pre post yloc ytype s res v :
  Forall (λ y, typedef_named xtag y = false) pre →
  Forall (λ y, typedef_named xtag y = false) post →
  denoFFIType (resolvedTypeDefs s) ytype = Ok (Some v) →
  lookahead (pre ++ Typedef xtag yloc ytype :: post) xname xtag s res =
    Ok (set_resolved xname v
          (console_error
             (denoFFIType_log (resolvedTypeDefs s) (Some xname) ytype) s),
        Some v).
Proof.
  intros Hpre Hpost Hv.
  rewrite lookahead_app, (lookahead_skip _ _ _ Hpre). cbn.
  rewrite String.eqb_refl, Hv. cbn.
  now rewrite (lookahead_skip _ _ _ Hpost).
Qed.

(** The lookahead never unbinds a name, and writes no key but [x.name]. *)
Lemma lookahead_table ys s res s' res' :
  lookahead ys xname xtag s res = Ok (s', res') →
  dom (resolvedTypeDefs s) ⊆ dom (resolvedTypeDefs s') ∧
  (∀ k, k ≠ xname → resolvedTypeDefs s' !! k = resolvedTypeDefs s !! k) ∧
  symbolSource s' = symbolSource s ∧
  total s' = total s ∧ generated s' = generated s.
Proof.
  revert s res. induction ys as [|y ys IH]; intros s res.
  - intros [= <- <-]. repeat split; reflexivity.
  - destruct y as [yname yloc ytype| | |]; cbn [lookahead]; try apply IH.
    destruct (yname =? xtag)%string; [|apply IH].
    destruct (denoFFIType (resolvedTypeDefs s) ytype) as [[v|]|e]; cbn;
      [| |discriminate]; intros H; apply IH in H; cbn in H;
      destruct H as (Hd & Hk & Hs & Ht & Hg); repeat split; try assumption.
    + etrans; [|exact Hd]. rewrite dom_insert. apply union_subseteq_r.
    + intros k Hne. rewrite (Hk k Hne). now apply lookup_insert_ne.
Qed.
End Lookahead.

Section TypedefCase.
Variable symbols : list Def.

(** The direct mapping succeeds. *)
Lemma typedef_case_direct xname xtype s v :
  denoFFIType (resolvedTypeDefs s) xtype = Ok (Some v) →
  typedef_case symbols xname xtype s =
    Ok (incr_generatedTypeDefs
          (set_resolved xname v
             (console_error
                (denoFFIType_log (resolvedTypeDefs s) (Some xname) xtype)
                (incr_totalTypeDefs s)))).
Proof. intros H. unfold typedef_case. cbn. now rewrite H. Qed.

(** The direct mapping fails and the lookahead finds the one typedef that
    has the wanted name. *)
Lemma typedef_case_one_hop (pre post : list Def) xname xtype yloc ytype s v :
  symbols = (pre ++ Typedef (tag xtype) yloc ytype :: post)%list →
  Forall (λ y, typedef_named (tag xtype) y = false) pre →
  Forall (λ y, typedef_named (tag xtype) y = false) post →
  denoFFIType (resolvedTypeDefs s) xtype = Ok None →
  denoFFIType (resolvedTypeDefs s) ytype = Ok (Some v) →
  ∃ s', typedef_case symbols xname xtype s = Ok s' ∧
        resolvedTypeDefs s' = <[xname := v]> (resolvedTypeDefs s) ∧
        generatedTypeDefs s' = generatedTypeDefs s + 1 ∧
        totalTypeDefs s' = totalTypeDefs s + 1.
Proof.
  intros -> Hpre Hpost Hx Hy. unfold typedef_case. cbn. rewrite Hx. cbn.
  erewrite lookahead_unique by (eassumption || exact Hy). cbn.
  eexists. split; [reflexivity|]. cbn. split; [|split; reflexivity].
  apply insert_insert_eq.
Qed.

Lemma typedef_case_table xname xtype s s' :
  typedef_case symbols xname xtype s = Ok s' →
  dom (resolvedTypeDefs s) ⊆ dom (resolvedTypeDefs s') ∧
  (∀ k, k ≠ xname → resolvedTypeDefs s' !! k = resolvedTypeDefs s !! k) ∧
  symbolSource s' = symbolSource s ∧
  total s' = total s ∧ generated s' = generated s.
Proof.
  unfold typedef_case. cbn.
  destruct (denoFFIType (resolvedTypeDefs s) xtype) as [[v|]|e]; cbn;
    [| |discriminate].
  - intros [= <-]. cbn. repeat split; try reflexivity.
    + rewrite dom_insert. apply union_subseteq_r.
    + intros k Hne. now apply lookup_insert_ne.
  - destruct (lookahead _ _ _ _ _) as [[s1 r1]|e] eqn:El; cbn; [|discriminate].
    apply lookahead_table in El. cbn in El.
    destruct El as (Hd & Hk & Hs & Ht & Hg).
    destruct r1 as [v|]; intros [= <-]; cbn; repeat split; try assumption.
    + etrans; [exact Hd|]. rewrite dom_insert. apply union_subseteq_r.
    + intros k Hne. rewrite lookup_insert_ne by congruence. now apply Hk.
Qed.
End TypedefCase.

(** ** The function signature builder *)

Section ParameterMapper.
Variable tbl : gmap string NativeResultType.

Lemma denoFFIParameter_fatal p :
  fatal_parameter tbl p → ∃ e, denoFFIParameter tbl p = Throw e.
Proof.
  unfold denoFFIParameter. intros [Ht|Hv].
  - apply String.eqb_neq in Ht. rewrite Ht. cbn. eauto.
  - destruct (negb _); [eauto|]. rewrite Hv. cbn. eauto.
Qed.

Lemma denoFFIParameter_Throw p e :
  fields_typed (p_type p) = true →
  denoFFIParameter tbl p = Throw e → fatal_parameter tbl p.
Proof.
  unfold denoFFIParameter, fatal_parameter. intros W.
  destruct (String.eqb_spec (p_tag p) "parameter") as [_|Hne]; cbn;
    [|now left].
  destruct (denoFFIType_typed tbl _ W) as [o ->]. cbn.
  destruct o as [[]|]; try discriminate. now right.
Qed.

Lemma denoFFIParameter_Ok p :
  p_tag p = "parameter" →
  denoFFIType tbl (p_type p) ≠ Ok (Some void) →
  fields_typed (p_type p) = true →
  ∃ o, denoFFIType tbl (p_type p) = Ok o ∧ denoFFIParameter tbl p = Ok o.
Proof.
  unfold denoFFIParameter. intros -> Hv W. cbn.
  destruct (denoFFIType_typed tbl _ W) as [o Ho]. rewrite Ho in *. cbn.
  exists o. split; [reflexivity|]. destruct o as [[]|]; congruence.
Qed.

Lemma mapM_denoFFIParameter_Ok params :
  Forall (λ p, p_tag p = "parameter") params →
  Forall (λ p, denoFFIType tbl (p_type p) ≠ Ok (Some void)) params →
  Forall (λ p, fields_typed (p_type p) = true) params →
  ∃ ps, mapM (denoFFIParameter tbl) params = Ok ps ∧
        Forall2 (λ p o, denoFFIType tbl (p_type p) = Ok o) params ps.
Proof.
  induction params as [|p params IH]; intros Ht Hv Hw.
  - exists []. split; [reflexivity|constructor].
  - inversion Ht; inversion Hv; inversion Hw; subst.
    destruct IH as (ps & E & F); try assumption.
    destruct (denoFFIParameter_Ok p) as (o & Eo & Ep); try assumption.
    exists (o :: ps). rewrite mapM_cons, Ep, E. split; [reflexivity|].
    now constructor.
Qed.

(** The parameter named in the skip line is the first unmapped one. *)
Lemma indexOf_null_lookup {A} (f : A → Result (option NativeResultType)) l k :
  Forall2 (λ x o, f x = Ok o) l k → None ∈ k →
  ∃ x, l !! indexOf_null k = Some x ∧ f x = Ok None.
Proof.
  induction 1 as [|x o l k Hx Hl IH]; intros Hin.
  { inversion Hin. }
  destruct o as [n|]; cbn.
  - apply IH. inversion Hin; subst; assumption.
  - eauto.
Qed.
End ParameterMapper.

Section FunctionCase.
Variables (name location : string) (params : list Param) (ret : Type_).

Lemma function_case_flagged variadic inline s :
  inline || variadic = true →
  function_case name location variadic inline params ret s =
    Ok (console_error
          [SkipFlag name (if inline then "inline" else "variadic")]
          (incr_total s)).
Proof. intros H. unfold function_case. now rewrite H. Qed.

(** Whatever a function definition does, it leaves the typedef table and
    the typedef counters alone and counts one more function. *)
Lemma function_case_table variadic inline s s' :
  function_case name location variadic inline params ret s = Ok s' →
  resolvedTypeDefs s' = resolvedTypeDefs s ∧ total s' = total s + 1.
Proof.
  unfold function_case. destruct (inline || variadic).
  { intros [= <-]. split; reflexivity. }
  cbn. destruct (mapM _ params) as [ps|e]; cbn; [|discriminate].
  destruct (includes_null ps).
  { intros [= <-]. split; reflexivity. }
  destruct (denoFFIType _ ret) as [[v|]|e]; cbn; [| |discriminate];
    intros [= <-]; split; reflexivity.
Qed.

(** Every parameter and the return type map: the symbol is written. *)
Lemma function_case_generated s ns v :
  Forall2 (λ p n, denoFFIParameter (resolvedTypeDefs s) p = Ok (Some n)) params ns →
  denoFFIType (resolvedTypeDefs s) ret = Ok (Some v) →
  ∃ s', function_case name location false false params ret s = Ok s' ∧
        symbolSource s' =
          <[name := MkForeignFunction ns v (name ++ " @ " ++ location)]>
            (symbolSource s) ∧
        resolvedTypeDefs s' = resolvedTypeDefs s ∧
        generated s' = generated s + 1 ∧ total s' = total s + 1.
Proof.
  intros Hp Hr. unfold function_case. cbn.
  apply Forall2_Ok_Some, mapM_Ok_Forall2 in Hp. rewrite Hp. cbn.
  rewrite includes_null_Some, Hr. cbn. rewrite as_native_Some.
  eexists. split; [reflexivity|]. repeat split; reflexivity.
Qed.
End FunctionCase.

(** ** The loop *)

Lemma run_from_app symbols (pre post : list Def) s :
  run_from symbols s (pre ++ post)%list =
    s' ← run_from symbols s pre; run_from symbols s' post.
Proof.
  revert s. induction pre as [|x pre IH]; intros s; [reflexivity|].
  cbn [app run_from]. destruct (step symbols x s); cbn; [apply IH|reflexivity].
Qed.

Lemma step_table symbols x s s' :
  step symbols x s = Ok s' →
  dom (resolvedTypeDefs s) ⊆ dom (resolvedTypeDefs s') ∧
  (∀ k, table_key x ≠ Some k →
        resolvedTypeDefs s' !! k = resolvedTypeDefs s !! k).
Proof.
  destruct x as [n l t|n l fs|n l v i ps r|t]; cbn [step table_key].
  - intros H. apply typedef_case_table in H as (Hd & Hk & _).
    split; [exact Hd|]. intros k Hne. apply Hk. congruence.
  - intros H. apply typedef_case_table in H as (Hd & Hk & _).
    split; [exact Hd|]. intros k Hne. apply Hk. congruence.
  - intros H. apply function_case_table in H as [-> _]. split; reflexivity.
  - intros [= <-]. split; reflexivity.
Qed.

(** A typed input never makes the typedef case throw. *)
Lemma lookahead_typed xname xtag ys s res :
  Forall (λ d, def_typed d = true) ys →
  ∃ p, lookahead ys xname xtag s res = Ok p.
Proof.
  intros H. revert s res. induction H as [|y ys Hy _ IH]; intros s res.
  - eexists. reflexivity.
  - destruct y as [yname yloc ytype| | |]; cbn [lookahead]; try apply IH.
    destruct (yname =? xtag)%string; [|apply IH].
    destruct (denoFFIType_typed (resolvedTypeDefs s) ytype Hy) as [o ->].
    cbn. destruct o; apply IH.
Qed.

Lemma typedef_case_typed symbols xname xtype s :
  Forall (λ d, def_typed d = true) symbols → fields_typed xtype = true →
  ∃ s', typedef_case symbols xname xtype s = Ok s'.
Proof.
  intros Hs Hx. unfold typedef_case. cbn.
  destruct (denoFFIType_typed (resolvedTypeDefs s) xtype Hx) as [o ->]. cbn.
  destruct o as [v|]; cbn; [eauto|].
  edestruct (lookahead_typed xname (tag xtype) symbols) as [[s1 r1] ->];
    [exact Hs|].
  cbn. destruct r1; eauto.
Qed.

(** ** Typedefs and structs in the loop *)




(** With two typedefs of the wanted name the later one is kept. *)
Lemma typedef_lookahead_last_wins :
  let symbols := [Typedef "a" "a.h:1" (ty "b");
                  Typedef "b" "a.h:2" (ty ":int");
                  Typedef "b" "a.h:3" (ty ":long")] in
  ∃ s', step symbols (Typedef "a" "a.h:1" (ty "b")) initial = Ok s' ∧
        resolvedTypeDefs s' !! "a" = Some i64.
Proof. cbv zeta. eexists. split; reflexivity. Qed.

(** C3, as amended: when the type mapper maps a struct definition, the
    result is the aggregate of its fields' native types and the struct's
    name is registered with it; when it does not, and the input holds
    exactly one typedef named ["struct"] whose type maps, the struct's name
    is registered with the native type of that typedef. *)
Theorem struct_registered (symbols pre post : list Def) name loc fs yloc ytype s v :
  (denoFFIType (resolvedTypeDefs s) (struct_as_type fs) = Ok (Some v) →
   (∃ l ns, fs = Some l ∧ v = Struct ns ∧
            Forall2 (λ f n, denoFFIField (resolvedTypeDefs s) f = Ok (Some n)) l ns) ∧
   ∃ s', step symbols (StructDef name loc fs) s = Ok s' ∧
         resolvedTypeDefs s' !! name = Some v ∧
         resolvedTypeDefs s' = <[name := v]> (resolvedTypeDefs s) ∧
         generatedTypeDefs s' = generatedTypeDefs s + 1) ∧
  (symbols = (pre ++ Typedef "struct" yloc ytype :: post)%list →
   Forall (λ y, typedef_named "struct" y = false) pre →
   Forall (λ y, typedef_named "struct" y = false) post →
   denoFFIType (resolvedTypeDefs s) (struct_as_type fs) = Ok None →
   denoFFIType (resolvedTypeDefs s) ytype = Ok (Some v) →
   ∃ s', step symbols (StructDef name loc fs) s = Ok s' ∧
         resolvedTypeDefs s' !! name = Some v ∧
         resolvedTypeDefs s' = <[name := v]> (resolvedTypeDefs s) ∧
         generatedTypeDefs s' = generatedTypeDefs s + 1).
Proof.
  split.
  - intros Hv. split.
    + destruct fs as [l|]; [|discriminate].
      destruct (denoFFIType_struct_Some (resolvedTypeDefs s)
                  (struct_as_type (Some l)) l v eq_refl eq_refl Hv)
        as (ns & -> & F).
      exists l, ns. auto.
    + cbn [step]. rewrite (typedef_case_direct symbols name _ s v Hv).
      eexists. split; [reflexivity|]. cbn. repeat split.
      apply lookup_insert_eq.
  - intros Hsym Hpre Hpost Hx Hy. cbn [step].
    destruct (typedef_case_one_hop symbols pre post name (struct_as_type fs)
                yloc ytype s v) as (s' & E & Ht & Hg & _); try assumption.
    exists s'. repeat split; try assumption.
    rewrite Ht. apply lookup_insert_eq.
Qed.

(** C3, witness: a struct of two [int] fields, mapped directly; and a
    struct without a field list next to a typedef named ["struct"]. *)
Lemma struct_registered_witness :
  (∃ s', step [] (StructDef "point" "a.h:1"
                    (Some [field (ty ":int"); field (ty ":int")])) initial = Ok s' ∧
         resolvedTypeDefs s' !! "point" = Some (Struct [i32; i32])) ∧
  (∃ s', step [StructDef "foo" "a.h:1" None; Typedef "struct" "a.h:2" (ty ":int")]
           (StructDef "foo" "a.h:1" None) initial = Ok s' ∧
         resolvedTypeDefs s' !! "foo" = Some i32).
Proof.
  split.
  - destruct (struct_registered [] [] [] "point" "a.h:1"
                (Some [field (ty ":int"); field (ty ":int")])
                "" (ty "") initial (Struct [i32; i32])) as [H _].
    destruct (H eq_refl) as (_ & s' & E & L & _).
    exists s'. split; assumption.
  - destruct (struct_registered
                [StructDef "foo" "a.h:1" None; Typedef "struct" "a.h:2" (ty ":int")]
                [StructDef "foo" "a.h:1" None] []
                "foo" "a.h:1" None "a.h:2" (ty ":int") initial i32) as [_ H].
    destruct H as (s' & E & L & _); try reflexivity.
    + repeat constructor.
    + constructor.
    + exists s'. split; assumption.
Defined.

(** C3, as stated, fails: the struct [foo] has no field list, the lookahead
    succeeds through a typedef named ["struct"], and [foo] is registered
    with [i32], which is no aggregate. *)
Lemma struct_registered_as_scalar :
  let symbols := [StructDef "foo" "a.h:1" None;
                  Typedef "struct" "a.h:2" (ty ":int")] in
  denoFFIType (resolvedTypeDefs initial) (struct_as_type None) = Ok None ∧
  ∃ s', step symbols (StructDef "foo" "a.h:1" None) initial = Ok s' ∧
        generatedTypeDefs s' = 1 ∧
        resolvedTypeDefs s' !! "foo" = Some i32 ∧
        ∀ ns, resolvedTypeDefs s' !! "foo" ≠ Some (Struct ns).
Proof.
  cbv zeta. split; [reflexivity|]. eexists. repeat split; try reflexivity.
  intros ns. discriminate.
Qed.

(** C8, as amended: a step that returns never unbinds a name of the
    resolved-typedef table, what it binds is never [null], and it leaves
    the binding of every name but the one of the typedef or struct it
    handles as it was; so over a run that returns the bound names only
    grow. *)
Theorem table_only_grows symbols s :
  (∀ x s', step symbols x s = Ok s' →
     dom (resolvedTypeDefs s) ⊆ dom (resolvedTypeDefs s') ∧
     ∀ k, table_key x ≠ Some k →
          resolvedTypeDefs s' !! k = resolvedTypeDefs s !! k) ∧
  (∀ xs s', run_from symbols s xs = Ok s' →
     dom (resolvedTypeDefs s) ⊆ dom (resolvedTypeDefs s')).
Proof.
  split; [intros x s'; apply step_table|].
  intros xs. revert s. induction xs as [|x xs IH]; intros s s'; cbn [run_from].
  - now intros [= <-].
  - destruct (step symbols x s) as [s1|e] eqn:E; cbn; [|discriminate].
    intros H. apply step_table in E as [Hd _]. apply IH in H.
    etrans; eassumption.
Qed.

(** C8, witness: after [typedef int a; typedef a b;] the name [a] is still
    bound. *)
Lemma table_only_grows_witness :
  let symbols := [Typedef "a" "a.h:1" (ty ":int"); Typedef "b" "a.h:2" (ty "a")] in
  ∃ s1 s2, step symbols (Typedef "a" "a.h:1" (ty ":int")) initial = Ok s1 ∧
           run_from symbols s1 [Typedef "b" "a.h:2" (ty "a")] = Ok s2 ∧
           dom (resolvedTypeDefs s1) ⊆ dom (resolvedTypeDefs s2).
Proof.
  cbv zeta. do 2 eexists. split; [reflexivity|]. split; [reflexivity|].
  match goal with
  | |- dom (resolvedTypeDefs ?s1) ⊆ _ =>
      destruct (table_only_grows
                  [Typedef "a" "a.h:1" (ty ":int"); Typedef "b" "a.h:2" (ty "a")]
                  s1) as [_ H]
  end.
  apply (H [Typedef "b" "a.h:2" (ty "a")]). reflexivity.
Defined.

(** C8, as stated, fails: [typedef int foo; struct foo { char c; };] binds
    [foo] to [i32] and then to the aggregate of the struct. *)
Lemma typedef_name_rebound :
  let symbols := [Typedef "foo" "a.h:1" (ty ":int");
                  StructDef "foo" "a.h:2" (Some [field (ty ":char")])] in
  ∃ s1 s2,
    run_from symbols initial (take 1 symbols) = Ok s1 ∧
    run symbols = Ok s2 ∧
    resolvedTypeDefs s1 !! "foo" = Some i32 ∧
    resolvedTypeDefs s2 !! "foo" = Some (Struct [u8]) ∧
    resolvedTypeDefs s1 !! "foo" ≠ resolvedTypeDefs s2 !! "foo".
Proof.
  cbv zeta. do 2 eexists. repeat split; try reflexivity. discriminate.
Qed.

(** ** Functions in the loop *)

(** C4: a function whose inline or variadic flag is set is counted in
    [total] and skipped with the line that names the flag; the symbol
    table and the generated counter stay as they were, whatever its
    parameters and return type are. *)
Theorem flagged_function_skipped symbols name location variadic inline params ret s :
  inline || variadic = true →
  ∃ s', step symbols (Function name location variadic inline params ret) s = Ok s' ∧
        symbolSource s' = symbolSource s ∧
        generated s' = generated s ∧
        total s' = total s + 1 ∧
        log s' = (log s ++ [SkipFlag name (if inline then "inline" else "variadic")])%list.
Proof.
  intros H. cbn [step]. rewrite function_case_flagged by exact H.
  eexists. split; [reflexivity|]. repeat split.
Qed.

(** C4, witness: a variadic [printf] whose parameter and return type map. *)
Lemma flagged_function_skipped_witness :
  let printf := Function "printf" "stdio.h:1" true false
                  [MkParam "parameter" "fmt" (ty ":pointer")] (ty ":int") in
  ∃ s', step [printf] printf initial = Ok s' ∧
        symbolSource s' = ∅ ∧ generated s' = 0 ∧ total s' = 1.
Proof.
  cbv zeta.
  destruct (flagged_function_skipped
              [Function "printf" "stdio.h:1" true false
                 [MkParam "parameter" "fmt" (ty ":pointer")] (ty ":int")]
              "printf" "stdio.h:1" true false
              [MkParam "parameter" "fmt" (ty ":pointer")] (ty ":int") initial
              eq_refl) as (s' & E & Hs & Hg & Ht & _).
  exists s'. repeat split; assumption.
Defined.

Lemma forallb_Forall_true {A} (f : A → bool) l :
  forallb f l = true → Forall (λ x, f x = true) l.
Proof.
  induction l as [|x l IH]; cbn; [constructor|].
  intros H. apply andb_prop in H as [Hx Hl]. constructor; auto.
Qed.

Lemma Exists_typed_fatal tbl params e :
  Forall (λ p, fields_typed (p_type p) = true) params →
  Exists (λ p, denoFFIParameter tbl p = Throw e) params →
  Exists (fatal_parameter tbl) params.
Proof.
  intros W. induction 1 as [p l Hp|p l _ IH]; inversion W; subst.
  - left. now apply (denoFFIParameter_Throw tbl p e).
  - right. now apply IH.
Qed.

(** C5, as amended: a function that is neither inline nor variadic and has
    a parameter whose tag is not ["parameter"], or whose type maps to
    [void], makes its step throw, and with it any run that reaches it; and
    on an input whose field lists carry a nested type on every field, this
    is the only way a step throws. *)
Theorem only_parameters_abort symbols s :
  (∀ name location params ret,
     Exists (fatal_parameter (resolvedTypeDefs s)) params →
     ∃ e, step symbols (Function name location false false params ret) s = Throw e ∧
          ∀ s0 (pre rest : list Def),
            run_from symbols s0 pre = Ok s →
            run_from symbols s0
              (pre ++ Function name location false false params ret :: rest)
              = Throw e) ∧
  (∀ x e,
     Forall (λ d, def_typed d = true) symbols → def_typed x = true →
     step symbols x s = Throw e →
     ∃ name location params ret,
       x = Function name location false false params ret ∧
       Exists (fatal_parameter (resolvedTypeDefs s)) params).
Proof.
  split.
  - intros name location params ret Hex.
    assert (∃ e, mapM (denoFFIParameter (resolvedTypeDefs s)) params = Throw e)
      as [e He].
    { apply mapM_Exists_Throw. eapply Exists_impl; [exact Hex|].
      intros p. apply denoFFIParameter_fatal. }
    assert (step symbols (Function name location false false params ret) s
              = Throw e) as Hstep.
    { cbn [step]. unfold function_case. cbn. now rewrite He. }
    exists e. split; [exact Hstep|].
    intros s0 pre rest Hpre. rewrite run_from_app, Hpre. cbn [mbind Result_bind].
    cbn [run_from]. now rewrite Hstep.
  - intros x e Hsym Hx Hthrow.
    destruct x as [n l t|n l fs|n l v i ps r|t]; cbn [step def_typed] in *.
    + destruct (typedef_case_typed symbols n t s Hsym Hx) as [s' E]. congruence.
    + destruct (typedef_case_typed symbols n _ s Hsym Hx) as [s' E]. congruence.
    + apply andb_prop in Hx as [Hps Hr].
      apply forallb_Forall_true in Hps as Wps.
      unfold function_case in Hthrow.
      destruct i, v; cbn in Hthrow; try discriminate.
      destruct (mapM _ ps) as [k|e'] eqn:Ek; cbn in Hthrow.
      * destruct (includes_null k); [discriminate|].
        destruct (denoFFIType_typed (resolvedTypeDefs s) r Hr) as [o Ho].
        rewrite Ho in Hthrow. cbn in Hthrow. destruct o; discriminate.
      * injection Hthrow as ->. apply mapM_Throw_Exists in Ek.
        exists n, l, ps, r. split; [reflexivity|].
        now apply (Exists_typed_fatal _ _ e).
    + discriminate.
Qed.

(** C5, witness: a parameter tagged ["field"] aborts the run that holds
    its function; so does a parameter of type [void]. *)
Lemma only_parameters_abort_witness :
  let f := Function "f" "a.h:1" false false
             [MkParam "field" "x" (ty ":int")] (ty ":int") in
  (∃ e, run [Unknown "var"; f; Unknown "var"] = Throw e) ∧
  (∃ e, step [] (Function "g" "a.h:2" false false
                   [MkParam "parameter" "x" (ty ":void")] (ty ":int")) initial
          = Throw e).
Proof.
  cbv zeta. split.
  - destruct (only_parameters_abort
                [Unknown "var";
                 Function "f" "a.h:1" false false
                   [MkParam "field" "x" (ty ":int")] (ty ":int");
                 Unknown "var"]
                (console_error [UnknownTag "var"] (count_unknown "var" initial)))
      as [H _].
    destruct (H "f" "a.h:1" [MkParam "field" "x" (ty ":int")] (ty ":int"))
      as (e & _ & Hrun).
    + left. left. discriminate.
    + exists e. apply (Hrun initial [Unknown "var"] [Unknown "var"]).
      reflexivity.
  - destruct (only_parameters_abort [] initial) as [H _].
    destruct (H "g" "a.h:2" [MkParam "parameter" "x" (ty ":void")] (ty ":int"))
      as (e & Hstep & _).
    + left. right. reflexivity.
    + exists e. exact Hstep.
Defined.

(** C5, as stated, fails: every parameter of [f] is tagged ["parameter"]
    and none maps to [void], yet the run is aborted, by the [TypeError]
    that the field without a nested type raises in the mapper. *)
Lemma typeless_field_aborts :
  let params := [MkParam "parameter" "s"
                   (MkType "struct" (Some [MkType "field" None None]) None)] in
  let f := Function "f" "a.h:1" false false params (ty ":int") in
  Forall (λ p, ¬ fatal_parameter (resolvedTypeDefs initial) p) params ∧
  step [f] f initial = Throw TypeError ∧
  run [f] = Throw TypeError.
Proof.
  cbv zeta. repeat split. constructor; [|constructor].
  intros [H|H]; [now apply H|discriminate].
Qed.

(** C6, as amended: a function that is neither inline nor variadic, whose
    parameters are all tagged ["parameter"], none of type [void] and all
    with a nested type on every field they hold, and of which a
    parameter's type or the return type is unmapped, is skipped without a
    throw: the symbol table and [generated] stay, [total] grows by one, so
    does the skipped figure, and the last line written names the unmapped
    parameter or the return type. *)
Theorem unmapped_function_skipped symbols name location params ret s :
  Forall (λ p, p_tag p = "parameter") params →
  Forall (λ p, denoFFIType (resolvedTypeDefs s) (p_type p) ≠ Ok (Some void)) params →
  Forall (λ p, fields_typed (p_type p) = true) params →
  Exists (λ p, denoFFIType (resolvedTypeDefs s) (p_type p) = Ok None) params ∨
    denoFFIType (resolvedTypeDefs s) ret = Ok None →
  ∃ s', step symbols (Function name location false false params ret) s = Ok s' ∧
        symbolSource s' = symbolSource s ∧
        total s' = total s + 1 ∧
        generated s' = generated s ∧
        skipped s' = skipped s + 1 ∧
        skipped s' = total s' - generated s' ∧
        ((∃ p, p ∈ params ∧
               denoFFIType (resolvedTypeDefs s) (p_type p) = Ok None ∧
               last (log s') = Some (SkipParameter name (Some p))) ∨
         last (log s') = Some (SkipReturn name ret)).
Proof.
  intros Ht Hv Hw Hun. cbn [step]. unfold function_case. cbn.
  destruct (mapM_denoFFIParameter_Ok _ params Ht Hv Hw) as (ps & E & F).
  rewrite E. cbn. destruct (includes_null ps) eqn:Hn.
  - eexists. split; [reflexivity|]. unfold skipped. cbn.
    repeat split; try lia. left.
    apply includes_null_true in Hn.
    destruct (indexOf_null_lookup
                (λ p, denoFFIType (resolvedTypeDefs s) (p_type p)) params ps F Hn)
      as (p & Hp & Hnone).
    exists p. rewrite Hp, last_snoc.
    split; [now apply list_elem_of_lookup_2 in Hp|]. split; [exact Hnone|reflexivity].
  - assert (denoFFIType (resolvedTypeDefs s) ret = Ok None) as ->.
    { destruct Hun as [Hex|Hr]; [|exact Hr].
      pose proof (Forall2_Ok_None _ _ _ F Hex) as Hin.
      apply includes_null_true in Hin. congruence. }
    cbn. eexists. split; [reflexivity|]. unfold skipped. cbn.
    repeat split; try lia. right. apply last_snoc.
Qed.

(** C6, witness: [f(size_t n)] with [size_t] unresolved, first in a run. *)
Lemma unmapped_function_skipped_witness :
  let f := Function "f" "a.h:1" false false
             [MkParam "parameter" "n" (ty "size_t")] (ty ":int") in
  ∃ s', step [f] f initial = Ok s' ∧
        symbolSource s' = ∅ ∧ total s' = 1 ∧ generated s' = 0 ∧ skipped s' = 1.
Proof.
  cbv zeta.
  destruct (unmapped_function_skipped
              [Function "f" "a.h:1" false false
                 [MkParam "parameter" "n" (ty "size_t")] (ty ":int")]
              "f" "a.h:1" [MkParam "parameter" "n" (ty "size_t")] (ty ":int")
              initial) as (s' & E & Hs & Ht & Hg & Hk & _ & _).
  - repeat constructor.
  - repeat constructor. discriminate.
  - repeat constructor.
  - left. left. reflexivity.
  - exists s'. repeat split; assumption.
Defined.

(** C6, as stated, fails: both parameters of [f] are tagged ["parameter"],
    neither maps to [void], the first is unmapped; yet [f] is not skipped,
    the run is aborted by the [TypeError] of the second parameter's field. *)
Lemma unmapped_parameter_then_throw :
  let params := [MkParam "parameter" "n" (ty "size_t");
                 MkParam "parameter" "s"
                   (MkType "struct" (Some [MkType "field" None None]) None)] in
  let f := Function "f" "a.h:1" false false params (ty ":int") in
  Forall (λ p, p_tag p = "parameter") params ∧
  Forall (λ p, denoFFIType (resolvedTypeDefs initial) (p_type p) ≠ Ok (Some void))
    params ∧
  Exists (λ p, denoFFIType (resolvedTypeDefs initial) (p_type p) = Ok None) params ∧
  step [f] f initial = Throw TypeError ∧
  run [f] = Throw TypeError.
Proof.
  cbv zeta. repeat split.
  - repeat constructor.
  - repeat constructor; discriminate.
  - left. reflexivity.
Qed.

(** C9: two functions of one name that both map, handled one after the
    other, leave one entry under that name, the one of the later
    definition, and raise [generated] by two; from an empty symbol table
    the artifact then lists one entry while [generated] counts two more. *)
Theorem same_name_last_wins symbols s name loc1 loc2 params1 params2 ret1 ret2
    ns1 ns2 r1 r2 :
  Forall2 (λ p n, denoFFIParameter (resolvedTypeDefs s) p = Ok (Some n)) params1 ns1 →
  denoFFIType (resolvedTypeDefs s) ret1 = Ok (Some r1) →
  Forall2 (λ p n, denoFFIParameter (resolvedTypeDefs s) p = Ok (Some n)) params2 ns2 →
  denoFFIType (resolvedTypeDefs s) ret2 = Ok (Some r2) →
  ∃ s', run_from symbols s
          [Function name loc1 false false params1 ret1;
           Function name loc2 false false params2 ret2] = Ok s' ∧
        symbolSource s' !! name =
          Some (MkForeignFunction ns2 r2 (name ++ " @ " ++ loc2)) ∧
        symbolSource s' =
          <[name := MkForeignFunction ns2 r2 (name ++ " @ " ++ loc2)]>
            (symbolSource s) ∧
        generated s' = generated s + 2 ∧
        (emitted s' ≤ S (emitted s))%nat ∧
        (symbolSource s = ∅ → emitted s' = 1%nat).
Proof.
  intros Hp1 Hr1 Hp2 Hr2. cbn [run_from step].
  destruct (function_case_generated name loc1 params1 ret1 s ns1 r1 Hp1 Hr1)
    as (s1 & E1 & Hs1 & Ht1 & Hg1 & _).
  rewrite E1. cbn [mbind Result_bind]. rewrite <- Ht1 in Hp2, Hr2.
  destruct (function_case_generated name loc2 params2 ret2 s1 ns2 r2 Hp2 Hr2)
    as (s2 & E2 & Hs2 & Ht2 & Hg2 & _).
  rewrite E2. cbn [mbind Result_bind]. exists s2.
  assert (symbolSource s2 =
            <[name := MkForeignFunction ns2 r2 (name ++ " @ " ++ loc2)]>
              (symbolSource s)) as Hs.
  { rewrite Hs2, Hs1. apply insert_insert_eq. }
  split; [reflexivity|]. split; [rewrite Hs; apply lookup_insert_eq|].
  split; [exact Hs|]. split; [lia|]. unfold emitted. rewrite Hs. split.
  - rewrite map_size_insert. destruct (symbolSource s !! name); cbn; lia.
  - intros ->. now rewrite insert_empty, map_size_singleton.
Qed.

(** C9, witness: two declarations of [f] in an otherwise empty run. *)
Lemma same_name_last_wins_witness :
  let f1 := Function "f" "a.h:3" false false
              [MkParam "parameter" "x" (ty ":int")] (ty ":void") in
  let f2 := Function "f" "b.h:9" false false [] (ty ":int") in
  ∃ s', run [f1; f2] = Ok s' ∧
        symbolSource s' !! "f" = Some (MkForeignFunction [] i32 "f @ b.h:9") ∧
        generated s' = 2 ∧ emitted s' = 1%nat.
Proof.
  cbv zeta.
  destruct (same_name_last_wins
              [Function "f" "a.h:3" false false
                 [MkParam "parameter" "x" (ty ":int")] (ty ":void");
               Function "f" "b.h:9" false false [] (ty ":int")]
              initial "f" "a.h:3" "b.h:9"
              [MkParam "parameter" "x" (ty ":int")] [] (ty ":void") (ty ":int")
              [i32] [] void i32)
    as (s' & E & Hl & _ & Hg & _ & He).
  - repeat constructor.
  - reflexivity.
  - constructor.
  - reflexivity.
  - exists s'. repeat split; [exact E|exact Hl|exact Hg|now apply He].
Defined.


(** * Further properties of the mapping engine *)

(** ** When the type mapper throws *)

Lemma denoFFIType_Ok_typed tbl t o :
  denoFFIType tbl t = Ok o → fields_typed t = true.
Proof.
  revert o. induction t as [t IH] using Type_fields_ind. intros o.
  rewrite fields_typed_unfold, denoFFIType_unfold.
  destruct (is_struct_tag (tag t)); [|reflexivity].
  destruct (fields t) as [fs|]; [|reflexivity].
  specialize (IH fs eq_refl).
  destruct (mapM (denoFFIField tbl) fs) as [k|e] eqn:Ek; [|discriminate].
  intros _. apply mapM_Ok_Forall2 in Ek. clear o.
  induction Ek as [|f y fs k Hf _ IHk]; [reflexivity|].
  inversion IH as [|? ? IHf IHfs]; subst. cbn.
  unfold denoFFIField in Hf. destruct (type_ f) as [ft|]; [|discriminate].
  rewrite (IHf ft eq_refl _ Hf). now apply IHk.
Qed.

Lemma denoFFIType_Throw_TypeError tbl t e :
  denoFFIType tbl t = Throw e → e = TypeError.
Proof.
  induction t as [t IH] using Type_fields_ind.
  rewrite denoFFIType_unfold.
  destruct (is_struct_tag (tag t)); [|discriminate].
  destruct (fields t) as [fs|]; [|discriminate].
  specialize (IH fs eq_refl).
  destruct (mapM (denoFFIField tbl) fs) as [k|e'] eqn:Ek.
  { cbn. destruct (includes_null k); discriminate. }
  cbn. intros [= ->]. apply mapM_Throw_Exists in Ek.
  induction Ek as [f fs Hf|f fs _ IHk]; inversion IH as [|? ? IHf IHfs]; subst.
  - unfold denoFFIField in Hf. destruct (type_ f) as [ft|]; [|congruence].
    now apply (IHf ft).
  - now apply IHk.
Qed.

(** X1: the type mapper throws exactly on the types in which some field of
    a field list it reads has no nested type; what it throws is then the
    [TypeError], and whether it throws does not depend on the table. *)
Theorem denoFFIType_throws_iff tbl t :
  ((∃ e, denoFFIType tbl t = Throw e) ↔ fields_typed t = false) ∧
  (∀ e, denoFFIType tbl t = Throw e → e = TypeError) ∧
  (∀ tbl' e, denoFFIType tbl t = Throw e → denoFFIType tbl' t = Throw e).
Proof.
  assert (∀ tb, (∃ e, denoFFIType tb t = Throw e) ↔ fields_typed t = false) as H.
  { intros tb. split.
    - intros [e He]. destruct (fields_typed t) eqn:W; [|reflexivity].
      destruct (denoFFIType_typed tb t W) as [o Ho]. congruence.
    - intros W. destruct (denoFFIType tb t) as [o|e] eqn:E; [|eauto].
      apply denoFFIType_Ok_typed in E. congruence. }
  split; [apply H|]. split; [apply denoFFIType_Throw_TypeError|].
  intros tbl' e He.
  assert (e = TypeError) as -> by exact (denoFFIType_Throw_TypeError _ _ _ He).
  destruct (proj2 (H tbl')) as [e' He'].
  { apply (H tbl). eauto. }
  now rewrite (denoFFIType_Throw_TypeError _ _ _ He') in He'.
Qed.

(** X1, witness: a struct whose only field has no nested type throws in
    the empty table, hence in any other. *)
Lemma denoFFIType_throws_iff_witness :
  denoFFIType {["t" := u8]} (MkType "struct" (Some [MkType "field" None None]) None)
    = Throw TypeError.
Proof.
  destruct (denoFFIType_throws_iff ∅
              (MkType "struct" (Some [MkType "field" None None]) None))
    as (_ & _ & H).
  apply H. reflexivity.
Defined.

(** ** The type mapper under a growing table *)

Lemma denoFFIType_struct_all tbl t fs ns :
  is_struct_tag (tag t) = true → fields t = Some fs →
  Forall2 (λ f n, denoFFIField tbl f = Ok (Some n)) fs ns →
  denoFFIType tbl t = Ok (Some (Struct ns)).
Proof.
  intros Hs Hf Hall. apply Forall2_Ok_Some, mapM_Ok_Forall2 in Hall.
  rewrite (denoFFIType_struct_fields tbl t fs _ Hs Hf Hall).
  now rewrite includes_null_Some, as_native_Some.
Qed.

(** A mapped type stays mapped in a table that relates, by [R], every
    binding of the old one to a binding of the same name. *)
Lemma denoFFIType_mapped_rel (R : NativeResultType → NativeResultType → Prop)
    (tbl tbl' : gmap string NativeResultType) :
  (∀ v, R v v) →
  (∀ ns ns', Forall2 R ns ns' → R (Struct ns) (Struct ns')) →
  (∀ k v, tbl !! k = Some v → ∃ v', tbl' !! k = Some v' ∧ R v v') →
  ∀ t v, denoFFIType tbl t = Ok (Some v) →
         ∃ v', denoFFIType tbl' t = Ok (Some v') ∧ R v v'.
Proof.
  intros Hrefl Hstruct Htbl.
  induction t as [t IH] using Type_fields_ind. intros v Hv.
  destruct (is_struct_tag (tag t)) eqn:Hs.
  - destruct (fields t) as [fs|] eqn:Hf.
    2:{ rewrite denoFFIType_unfold, Hs, Hf in Hv. discriminate. }
    specialize (IH fs eq_refl).
    destruct (denoFFIType_struct_Some tbl t fs v Hs Hf Hv) as (ns & -> & Hall).
    assert (∃ ns', Forall2 (λ f n, denoFFIField tbl' f = Ok (Some n)) fs ns' ∧
                   Forall2 R ns ns') as (ns' & Hall' & HR).
    { clear Hv Hf. induction Hall as [|f n fs ns Hfn _ IHall].
      - exists []. split; constructor.
      - inversion IH as [|? ? IHf IHfs]; subst.
        destruct (IHall IHfs) as (ns' & Hall' & HR).
        unfold denoFFIField in Hfn |- *.
        destruct (type_ f) as [ft|] eqn:Eft; [|discriminate].
        destruct (IHf ft eq_refl n Hfn) as (n' & Hn' & Rn).
        exists (n' :: ns'). split; constructor; try assumption.
        now rewrite Eft. }
    exists (Struct ns'). split; [|now apply Hstruct].
    now apply (denoFFIType_struct_all tbl' t fs).
  - rewrite denoFFIType_unfold, Hs in Hv |- *.
    destruct (tagMapping (tag t)) as [w|].
    + injection Hv as ->. eauto.
    + injection Hv as Hv. destruct (Htbl _ _ Hv) as (v' & -> & Rv). eauto.
Qed.

Lemma run_from_dom symbols xs s s' :
  run_from symbols s xs = Ok s' →
  dom (resolvedTypeDefs s) ⊆ dom (resolvedTypeDefs s').
Proof.
  revert s. induction xs as [|x xs IH]; intros s; cbn [run_from].
  - now intros [= <-].
  - destruct (step symbols x s) as [s1|e] eqn:E; cbn; [|discriminate].
    intros H. apply step_table in E as [Hd _]. apply IH in H.
    etrans; eassumption.
Qed.

(** X2: in a table that keeps every binding of another, each type the
    mapper mapped maps to the same native type. *)
Theorem denoFFIType_monotone (tbl tbl' : gmap string NativeResultType) t v :
  tbl ⊆ tbl' →
  denoFFIType tbl t = Ok (Some v) →
  denoFFIType tbl' t = Ok (Some v).
Proof.
  intros Hsub Hv.
  destruct (denoFFIType_mapped_rel eq tbl tbl') with (t := t) (v := v)
    as (v' & Hv' & <-); try assumption.
  - reflexivity.
  - intros ns ns' H. f_equal. induction H; congruence.
  - intros k w Hk. exists w. split; [|reflexivity].
    now apply (lookup_weaken tbl tbl').
Qed.

(** X2, witness: [uint] maps to [u32] before and after [size_t] is added. *)
Lemma denoFFIType_monotone_witness :
  denoFFIType {["size_t" := u64; "uint" := u32]}
    (MkType "struct" (Some [field (ty "uint")]) None) = Ok (Some (Struct [u32])).
Proof.
  apply (denoFFIType_monotone {["uint" := u32]}).
  - apply insert_subseteq. reflexivity.
  - reflexivity.
Defined.

(** X3: a type that maps at some point of a run that returns still maps
    at its end, possibly to another native type: later definitions never
    turn a mapped type into an unmapped one. *)
Theorem mapped_stays_mapped symbols xs s s' t v :
  run_from symbols s xs = Ok s' →
  denoFFIType (resolvedTypeDefs s) t = Ok (Some v) →
  ∃ v', denoFFIType (resolvedTypeDefs s') t = Ok (Some v').
Proof.
  intros Hrun Hv. apply run_from_dom in Hrun.
  destruct (denoFFIType_mapped_rel (λ _ _, True)
              (resolvedTypeDefs s) (resolvedTypeDefs s'))
    with (t := t) (v := v) as (v' & Hv' & _); eauto.
  intros k w Hk.
  assert (k ∈ dom (resolvedTypeDefs s')) as Hin.
  { apply Hrun. apply elem_of_dom. eauto. }
  apply elem_of_dom in Hin as [v' Hv']. eauto.
Qed.

(** X3, witness: with [foo] bound to [i32], the run over
    [typedef foo bar; struct foo { char c; };] rebinds [foo], and the type
    [foo] still maps. *)
Lemma mapped_stays_mapped_witness :
  let xs := [Typedef "bar" "a.h:2" (ty "foo");
             StructDef "foo" "a.h:3" (Some [field (ty ":char")])] in
  ∃ s', run_from xs (set_resolved "foo" i32 initial) xs = Ok s' ∧
        ∃ v', denoFFIType (resolvedTypeDefs s') (ty "foo") = Ok (Some v').
Proof.
  cbv zeta. eexists. split; [reflexivity|].
  apply (mapped_stays_mapped
           [Typedef "bar" "a.h:2" (ty "foo");
            StructDef "foo" "a.h:3" (Some [field (ty ":char")])]
           [Typedef "bar" "a.h:2" (ty "foo");
            StructDef "foo" "a.h:3" (Some [field (ty ":char")])]
           (set_resolved "foo" i32 initial) _ (ty "foo") i32); reflexivity.
Defined.

(** ** What the type mapper writes to the diagnostic stream *)

Lemma denoFFIType_log_unfold tbl hint t :
  denoFFIType_log tbl hint t =
    if is_struct_tag (tag t) then
      match fields t with
      | None => []
      | Some fs =>
          (flat_map (λ f, match type_ f with
                          | Some ft => denoFFIType_log tbl None ft
                          | None => []
                          end) fs
           ++ match mapM (denoFFIField tbl) fs with
              | Ok k =>
                  if includes_null k
                  then [SkipField (hint_or_struct hint) (fs !! indexOf_null k)]
                  else []
              | Throw _ => []
              end)%list
      end
    else [].
Proof.
  destruct t as [tg [fs|] nested]; cbn [denoFFIType_log tag fields];
    try reflexivity.
  destruct (is_struct_tag tg); [|reflexivity]. f_equal.
  apply flat_map_ext. intros [? ? [ft|]]; reflexivity.
Qed.

Lemma denoFFIType_log_mapped tbl t :
  ∀ hint v, denoFFIType tbl t = Ok (Some v) → denoFFIType_log tbl hint t = [].
Proof.
  induction t as [t IH] using Type_fields_ind. intros hint v Hv.
  rewrite denoFFIType_log_unfold.
  destruct (is_struct_tag (tag t)) eqn:Hs; [|reflexivity].
  destruct (fields t) as [fs|] eqn:Hf; [|reflexivity].
  specialize (IH fs eq_refl).
  destruct (denoFFIType_struct_Some tbl t fs v Hs Hf Hv) as (ns & _ & Hall).
  pose proof (proj2 (mapM_Ok_Forall2 _ _ _) (Forall2_Ok_Some _ _ _ Hall)) as Ek.
  rewrite Ek, includes_null_Some, app_nil_r. clear Ek Hv Hf.
  induction Hall as [|f n fs ns Hfn _ IHall]; [reflexivity|].
  inversion IH as [|? ? IHf IHfs]; subst. cbn [flat_map].
  rewrite (IHall IHfs), app_nil_r.
  unfold denoFFIField in Hfn. destruct (type_ f) as [ft|]; [|reflexivity].
  now apply (IHf ft eq_refl None n).
Qed.

(** X4: the type mapper writes nothing when it maps a type, and nothing for
    a tag that is not a struct tag, mapped or not; when a struct type with
    a field list comes out unmapped, the last line it writes names the
    hint, or ["struct"] without one, and the first unmapped field. *)
Theorem denoFFIType_diagnostics tbl hint t :
  (∀ v, denoFFIType tbl t = Ok (Some v) → denoFFIType_log tbl hint t = []) ∧
  (is_struct_tag (tag t) = false → denoFFIType_log tbl hint t = []) ∧
  (∀ fs, is_struct_tag (tag t) = true → fields t = Some fs →
         denoFFIType tbl t = Ok None →
         ∃ i f, fs !! i = Some f ∧
                denoFFIField tbl f = Ok None ∧
                Forall (λ g, ∃ n, denoFFIField tbl g = Ok (Some n)) (take i fs) ∧
                last (denoFFIType_log tbl hint t)
                  = Some (SkipField (hint_or_struct hint) (Some f))).
Proof.
  split; [intros v; apply denoFFIType_log_mapped|]. split.
  - intros Hs. now rewrite denoFFIType_log_unfold, Hs.
  - intros fs Hs Hf Hnone.
    destruct (denoFFIType_fields_Ok tbl t fs _ Hs Hf Hnone) as [k Ek].
    rewrite (denoFFIType_struct_fields tbl t fs k Hs Hf Ek) in Hnone.
    destruct (includes_null k) eqn:Hn; [|discriminate].
    rewrite denoFFIType_log_unfold, Hs, Hf, Ek, Hn, last_snoc.
    apply mapM_Ok_Forall2 in Ek. apply includes_null_true in Hn.
    clear Hnone Hf. exists (indexOf_null k).
    induction Ek as [|f o fs k Hfo _ IHk]; [inversion Hn|].
    destruct o as [n|]; cbn.
    + destruct IHk as (g & Hg & Hgn & Hpre & Hlast).
      { inversion Hn; subst; assumption. }
      exists g. repeat split; try assumption. constructor; eauto.
    + exists f. repeat split; [assumption|constructor].
Qed.

(** X4, witness: the struct [point] with an [int] field and a field of the
    unresolved [coord_t]. *)
Lemma denoFFIType_diagnostics_witness :
  let t := MkType "struct" (Some [field (ty ":int"); field (ty "coord_t")]) None in
  ∃ f, denoFFIField ∅ f = Ok None ∧
       last (denoFFIType_log ∅ (Some "point") t)
         = Some (SkipField "point" (Some f)).
Proof.
  cbv zeta.
  destruct (denoFFIType_diagnostics ∅ (Some "point")
              (MkType "struct" (Some [field (ty ":int"); field (ty "coord_t")]) None))
    as (_ & _ & H).
  destruct (H _ eq_refl eq_refl eq_refl) as (i & f & Hi & Hf & Hpre & Hlast).
  exists f. split; assumption.
Defined.

(** ** The typedef case when the lookahead does not help *)

Lemma lookahead_all_unmapped xname xtag ys s :
  Forall (λ y, ∀ yname yloc ytype, y = Typedef yname yloc ytype → yname = xtag →
               denoFFIType (resolvedTypeDefs s) ytype = Ok None) ys →
  ∃ s', lookahead ys xname xtag s None = Ok (s', None) ∧
        resolvedTypeDefs s' = resolvedTypeDefs s ∧
        symbolSource s' = symbolSource s ∧
        generatedTypeDefs s' = generatedTypeDefs s ∧
        totalTypeDefs s' = totalTypeDefs s.
Proof.
  intros H. revert s H. induction ys as [|y ys IH]; intros s H.
  - exists s. repeat split.
  - inversion H as [|? ? Hy Hys]; subst.
    destruct y as [yname yloc ytype| | |]; cbn [lookahead]; try now apply IH.
    destruct (String.eqb_spec yname xtag) as [->|Hne]; [|now apply IH].
    rewrite (Hy xtag yloc ytype eq_refl eq_refl). cbn.
    destruct (IH (console_error
                    (denoFFIType_log (resolvedTypeDefs s) (Some xname) ytype) s))
      as (s' & E & Ht & Hs & Hg & Htot); [exact Hys|].
    exists s'. repeat split; assumption.
Qed.

(** X5: a typedef or struct whose type does not map, while every typedef
    of the input that bears the name of its type's tag has an unmapped type
    as well, is counted and skipped without a throw: the table, the symbol
    table and the generated counter stay as they were.  The lookahead is
    one hop: it does not follow the type of the typedef it finds. *)
Theorem typedef_unresolved_skipped symbols x xname xtype s :
  as_typedef x = Some (xname, xtype) →
  denoFFIType (resolvedTypeDefs s) xtype = Ok None →
  Forall (λ y, ∀ yname yloc ytype, y = Typedef yname yloc ytype →
               yname = tag xtype →
               denoFFIType (resolvedTypeDefs s) ytype = Ok None) symbols →
  ∃ s', step symbols x s = Ok s' ∧
        resolvedTypeDefs s' = resolvedTypeDefs s ∧
        symbolSource s' = symbolSource s ∧
        totalTypeDefs s' = totalTypeDefs s + 1 ∧
        generatedTypeDefs s' = generatedTypeDefs s ∧
        skippedTypeDefs s' = skippedTypeDefs s + 1.
Proof.
  intros Hx Hdirect Hall.
  assert (step symbols x s = typedef_case symbols xname xtype s) as ->.
  { destruct x; cbn in Hx; try discriminate; now injection Hx as <- <-. }
  unfold typedef_case. cbn. rewrite Hdirect. cbn.
  destruct (lookahead_all_unmapped xname (tag xtype) symbols
              (console_error
                 (denoFFIType_log (resolvedTypeDefs s) (Some xname) xtype)
                 (incr_totalTypeDefs s)))
    as (s' & E & Ht & Hs & Hg & Htot); [exact Hall|].
  rewrite E. cbn. exists s'. unfold skippedTypeDefs.
  cbn in Ht, Hs, Hg, Htot. repeat split; try assumption; lia.
Qed.

(** X5, witness: [typedef b a; typedef c b; typedef int c;] in this order:
    when [a] is handled, [b] is found but its type [c] is not mapped. *)
Lemma typedef_unresolved_skipped_witness :
  let symbols := [Typedef "a" "a.h:1" (ty "b");
                  Typedef "b" "a.h:2" (ty "c");
                  Typedef "c" "a.h:3" (ty ":int")] in
  ∃ s', step symbols (Typedef "a" "a.h:1" (ty "b")) initial = Ok s' ∧
        resolvedTypeDefs s' = ∅ ∧ skippedTypeDefs s' = 1.
Proof.
  cbv zeta.
  destruct (typedef_unresolved_skipped
              [Typedef "a" "a.h:1" (ty "b");
               Typedef "b" "a.h:2" (ty "c");
               Typedef "c" "a.h:3" (ty ":int")]
              (Typedef "a" "a.h:1" (ty "b")) "a" (ty "b") initial)
    as (s' & E & Ht & _ & _ & _ & Hk); try reflexivity.
  - repeat constructor; intros ? ? ? [= <- <- <-]; (reflexivity || discriminate).
  - exists s'. repeat split; assumption.
Defined.

(** X6: the lookahead writes the table as soon as a matching typedef maps,
    and a later matching typedef that does not map resets the result: the
    name is then registered and yet counted as skipped, not as generated. *)
Theorem typedef_registered_but_skipped (symbols pre mid post : list Def)
    x xname xtype loc1 type1 loc2 type2 s v :
  as_typedef x = Some (xname, xtype) →
  symbols = (pre ++ Typedef (tag xtype) loc1 type1
               :: mid ++ Typedef (tag xtype) loc2 type2 :: post)%list →
  Forall (λ y, typedef_named (tag xtype) y = false) pre →
  Forall (λ y, typedef_named (tag xtype) y = false) mid →
  Forall (λ y, typedef_named (tag xtype) y = false) post →
  denoFFIType (resolvedTypeDefs s) xtype = Ok None →
  denoFFIType (resolvedTypeDefs s) type1 = Ok (Some v) →
  denoFFIType (<[xname := v]> (resolvedTypeDefs s)) type2 = Ok None →
  ∃ s', step symbols x s = Ok s' ∧
        resolvedTypeDefs s' = <[xname := v]> (resolvedTypeDefs s) ∧
        totalTypeDefs s' = totalTypeDefs s + 1 ∧
        generatedTypeDefs s' = generatedTypeDefs s ∧
        skippedTypeDefs s' = skippedTypeDefs s + 1.
Proof.
  intros Hx -> Hpre Hmid Hpost Hdirect H1 H2.
  assert (step (pre ++ Typedef (tag xtype) loc1 type1
                  :: mid ++ Typedef (tag xtype) loc2 type2 :: post) x s
          = typedef_case (pre ++ Typedef (tag xtype) loc1 type1
                            :: mid ++ Typedef (tag xtype) loc2 type2 :: post)
              xname xtype s) as ->.
  { destruct x; cbn in Hx; try discriminate; now injection Hx as <- <-. }
  unfold typedef_case. cbn. rewrite Hdirect. cbn.
  rewrite lookahead_app, (lookahead_skip _ _ _ _ _ Hpre). cbn.
  rewrite String.eqb_refl, H1. cbn.
  rewrite lookahead_app, (lookahead_skip _ _ _ _ _ Hmid). cbn.
  rewrite String.eqb_refl, H2. cbn.
  rewrite (lookahead_skip _ _ _ _ _ Hpost). cbn.
  eexists. split; [reflexivity|]. unfold skippedTypeDefs. cbn.
  repeat split; lia.
Qed.

(** X6, witness: [typedef b a;] with two typedefs [b], of [int] and of the
    unresolved [t]. *)
Lemma typedef_registered_but_skipped_witness :
  let symbols := [Typedef "a" "a.h:1" (ty "b");
                  Typedef "b" "a.h:2" (ty ":int");
                  Typedef "b" "a.h:3" (ty "t")] in
  ∃ s', step symbols (Typedef "a" "a.h:1" (ty "b")) initial = Ok s' ∧
        resolvedTypeDefs s' !! "a" = Some i32 ∧
        generatedTypeDefs s' = 0.
Proof.
  cbv zeta.
  destruct (typedef_registered_but_skipped
              [Typedef "a" "a.h:1" (ty "b");
               Typedef "b" "a.h:2" (ty ":int");
               Typedef "b" "a.h:3" (ty "t")]
              [Typedef "a" "a.h:1" (ty "b")] [] []
              (Typedef "a" "a.h:1" (ty "b")) "a" (ty "b")
              "a.h:2" (ty ":int") "a.h:3" (ty "t") initial i32)
    as (s' & E & Ht & _ & Hg & _); try reflexivity.
  - repeat constructor.
  - constructor.
  - constructor.
  - exists s'. rewrite Ht. repeat split; assumption.
Defined.

(** ** What each case of the loop leaves alone *)

Lemma lookahead_frame xname xtag ys s res s' res' :
  lookahead ys xname xtag s res = Ok (s', res') →
  totalTypeDefs s' = totalTypeDefs s ∧
  generatedTypeDefs s' = generatedTypeDefs s ∧
  unknowns s' = unknowns s ∧
  log s `prefix_of` log s'.
Proof.
  revert s res. induction ys as [|y ys IH]; intros s res.
  - intros [= <- <-]. repeat split; reflexivity.
  - destruct y as [yname yloc ytype| | |]; cbn [lookahead]; try apply IH.
    destruct (yname =? xtag)%string; [|apply IH].
    destruct (denoFFIType (resolvedTypeDefs s) ytype) as [[v|]|e]; cbn;
      [| |discriminate]; intros H; apply IH in H; cbn in H;
      destruct H as (Ht & Hg & Hu & Hl); repeat split; try assumption;
      (etrans; [|exact Hl]); apply prefix_app_r; reflexivity.
Qed.

Lemma typedef_case_frame symbols xname xtype s s' :
  typedef_case symbols xname xtype s = Ok s' →
  totalTypeDefs s' = totalTypeDefs s + 1 ∧
  generatedTypeDefs s ≤ generatedTypeDefs s' ≤ generatedTypeDefs s + 1 ∧
  unknowns s' = unknowns s ∧
  log s `prefix_of` log s'.
Proof.
  unfold typedef_case. cbn.
  destruct (denoFFIType (resolvedTypeDefs s) xtype) as [[v|]|e]; cbn;
    [| |discriminate].
  - intros [= <-]. cbn. repeat split; try lia. now apply prefix_app_r.
  - destruct (lookahead _ _ _ _ _) as [[s1 r1]|e] eqn:El; cbn; [|discriminate].
    apply lookahead_frame in El. cbn in El. destruct El as (Ht & Hg & Hu & Hl).
    assert (log s `prefix_of` log s1) as Hl'.
    { etrans; [|exact Hl]. now apply prefix_app_r. }
    destruct r1 as [v|]; intros [= <-]; cbn; repeat split;
      try assumption; lia.
Qed.

Lemma Forall2_Ok_Some_inv {A B} (f : A → Result (option B)) l ns :
  Forall2 (λ x y, f x = Ok y) l (map Some ns) →
  Forall2 (λ x n, f x = Ok (Some n)) l ns.
Proof.
  revert ns. induction l as [|x l IH]; intros [|n ns] H; inversion H; subst;
    constructor; auto.
Qed.

(** A function definition either leaves the symbol table and [generated]
    as they are, or it is unflagged, all of it maps, and its entry is
    written. *)
Lemma function_case_inv name location variadic inline params ret s s' :
  function_case name location variadic inline params ret s = Ok s' →
  totalTypeDefs s' = totalTypeDefs s ∧
  generatedTypeDefs s' = generatedTypeDefs s ∧
  unknowns s' = unknowns s ∧
  log s `prefix_of` log s' ∧
  ((symbolSource s' = symbolSource s ∧ generated s' = generated s) ∨
   (variadic = false ∧ inline = false ∧
    ∃ ns v,
      Forall2 (λ p n, denoFFIParameter (resolvedTypeDefs s) p = Ok (Some n))
        params ns ∧
      denoFFIType (resolvedTypeDefs s) ret = Ok (Some v) ∧
      symbolSource s' =
        <[name := MkForeignFunction ns v (name ++ " @ " ++ location)]>
          (symbolSource s) ∧
      generated s' = generated s + 1)).
Proof.
  unfold function_case. destruct (inline || variadic) eqn:Hflag.
  { intros [= <-]. cbn. split; [reflexivity|]. split; [reflexivity|].
    split; [reflexivity|]. split; [now apply prefix_app_r|now left]. }
  apply orb_false_elim in Hflag as [-> ->]. cbn.
  destruct (mapM _ params) as [ps|e] eqn:Ep; cbn; [|discriminate].
  destruct (includes_null ps) eqn:Hn.
  { intros [= <-]. cbn. split; [reflexivity|]. split; [reflexivity|].
    split; [reflexivity|]. split; [|now left].
    rewrite <- app_assoc. now apply prefix_app_r. }
  destruct (denoFFIType _ ret) as [[v|]|e] eqn:Er; cbn; [| |discriminate];
    intros [= <-]; cbn; (split; [reflexivity|]); (split; [reflexivity|]);
    (split; [reflexivity|]);
    (split; [rewrite <- ?app_assoc; now apply prefix_app_r|]); [|now left].
  right. split; [reflexivity|]. split; [reflexivity|].
  exists (as_native ps), v. split; [|split; [reflexivity|split; reflexivity]].
  apply Forall2_Ok_Some_inv. rewrite <- (includes_null_false _ Hn).
  now apply mapM_Ok_Forall2.
Qed.

(** X7: a step on a typedef or a struct leaves the symbol table, the
    function counters and the tally of unknown tags as they were; a step on
    a function leaves the typedef table, the typedef counters and the tally
    as they were; a step on an unknown tag changes only the tally; and
    every step only appends to the diagnostic stream. *)
Theorem step_frame symbols x s s' :
  step symbols x s = Ok s' →
  (is_typedef_or_struct x = true →
     symbolSource s' = symbolSource s ∧ total s' = total s ∧
     generated s' = generated s ∧ unknowns s' = unknowns s) ∧
  (is_function x = true →
     resolvedTypeDefs s' = resolvedTypeDefs s ∧
     totalTypeDefs s' = totalTypeDefs s ∧
     generatedTypeDefs s' = generatedTypeDefs s ∧ unknowns s' = unknowns s) ∧
  (∀ t, x = Unknown t →
     resolvedTypeDefs s' = resolvedTypeDefs s ∧
     symbolSource s' = symbolSource s ∧
     total s' = total s ∧ generated s' = generated s ∧
     totalTypeDefs s' = totalTypeDefs s ∧
     generatedTypeDefs s' = generatedTypeDefs s) ∧
  log s `prefix_of` log s'.
Proof.
  destruct x as [n l t|n l fs|n l v i ps r|t]; cbn [step]; intros H.
  - pose proof (typedef_case_table _ _ _ _ _ H) as (_ & _ & Hs & Ht & Hg).
    pose proof (typedef_case_frame _ _ _ _ _ H) as (_ & _ & Hu & Hl).
    repeat split; try assumption; discriminate.
  - pose proof (typedef_case_table _ _ _ _ _ H) as (_ & _ & Hs & Ht & Hg).
    pose proof (typedef_case_frame _ _ _ _ _ H) as (_ & _ & Hu & Hl).
    repeat split; try assumption; discriminate.
  - pose proof (function_case_table _ _ _ _ _ _ _ _ H) as (Ht & _).
    pose proof (function_case_inv _ _ _ _ _ _ _ _ H) as (Htt & Hgt & Hu & Hl & _).
    repeat split; try assumption; discriminate.
  - injection H as <-. cbn. repeat split; try discriminate.
    now apply prefix_app_r.
Qed.

(** X7, witness: the step of a struct definition from the initial state. *)
Lemma step_frame_witness :
  let d := StructDef "point" "a.h:1" (Some [field (ty ":int")]) in
  ∃ s', step [d] d initial = Ok s' ∧
        symbolSource s' = ∅ ∧ total s' = 0 ∧ generated s' = 0.
Proof.
  cbv zeta. eexists. split; [reflexivity|].
  match goal with
  | |- symbolSource ?s' = _ ∧ _ =>
      destruct (step_frame
                  [StructDef "point" "a.h:1" (Some [field (ty ":int")])]
                  (StructDef "point" "a.h:1" (Some [field (ty ":int")]))
                  initial s' eq_refl) as (H & _)
  end.
  destruct (H eq_refl) as (Hs & Ht & Hg & _).
  repeat split; assumption.
Defined.

(** ** The counters of the summary *)

Lemma step_counters symbols x s s' :
  step symbols x s = Ok s' →
  total s' = total s + (if is_function x then 1 else 0) ∧
  totalTypeDefs s' = totalTypeDefs s + (if is_typedef_or_struct x then 1 else 0) ∧
  generated s ≤ generated s' ≤ generated s + (if is_function x then 1 else 0) ∧
  generatedTypeDefs s ≤ generatedTypeDefs s'
    ≤ generatedTypeDefs s + (if is_typedef_or_struct x then 1 else 0).
Proof.
  destruct x as [n l t|n l fs|n l v i ps r|t]; cbn [step]; intros H; cbn.
  - pose proof (typedef_case_table _ _ _ _ _ H) as (_ & _ & _ & Ht & Hg).
    pose proof (typedef_case_frame _ _ _ _ _ H) as (Htt & Hgt & _). lia.
  - pose proof (typedef_case_table _ _ _ _ _ H) as (_ & _ & _ & Ht & Hg).
    pose proof (typedef_case_frame _ _ _ _ _ H) as (Htt & Hgt & _). lia.
  - pose proof (function_case_table _ _ _ _ _ _ _ _ H) as (_ & Ht).
    pose proof (function_case_inv _ _ _ _ _ _ _ _ H)
      as (Htt & Hgt & _ & _ & [[_ Hg]|(_ & _ & ns & w & _ & _ & _ & Hg)]); lia.
  - injection H as <-. cbn. lia.
Qed.

(** X8: over a run that returns, [total] grows by the number of function
    definitions handled and [totalTypeDefs] by the number of typedef and
    struct definitions; the generated counters never decrease and grow by
    no more than that, so neither skipped figure of the summary ever
    decreases. *)
Theorem run_counters symbols xs s s' :
  run_from symbols s xs = Ok s' →
  total s' = total s + count is_function xs ∧
  totalTypeDefs s' = totalTypeDefs s + count is_typedef_or_struct xs ∧
  generated s ≤ generated s' ≤ generated s + count is_function xs ∧
  generatedTypeDefs s ≤ generatedTypeDefs s'
    ≤ generatedTypeDefs s + count is_typedef_or_struct xs ∧
  skipped s ≤ skipped s' ∧
  skippedTypeDefs s ≤ skippedTypeDefs s'.
Proof.
  unfold skipped, skippedTypeDefs.
  revert s. induction xs as [|x xs IH]; intros s; cbn [run_from count].
  - intros [= <-]. lia.
  - destruct (step symbols x s) as [s1|e] eqn:E; cbn; [|discriminate].
    intros H. apply IH in H. apply step_counters in E. lia.
Qed.

(** X8, witness: a struct, a mapped function, a variadic one and an
    unknown tag. *)
Lemma run_counters_witness :
  let symbols := [StructDef "point" "a.h:1" (Some [field (ty ":int")]);
                  Function "f" "a.h:2" false false [] (ty ":int");
                  Function "g" "a.h:3" true false [] (ty ":int");
                  Unknown "var"] in
  ∃ s', run symbols = Ok s' ∧ total s' = 2 ∧ totalTypeDefs s' = 1 ∧
        0 ≤ generated s' ≤ 2.
Proof.
  cbv zeta. eexists. split; [reflexivity|].
  match goal with
  | |- total ?s' = _ ∧ _ =>
      destruct (run_counters
                  [StructDef "point" "a.h:1" (Some [field (ty ":int")]);
                   Function "f" "a.h:2" false false [] (ty ":int");
                   Function "g" "a.h:3" true false [] (ty ":int");
                   Unknown "var"]
                  [StructDef "point" "a.h:1" (Some [field (ty ":int")]);
                   Function "f" "a.h:2" false false [] (ty ":int");
                   Function "g" "a.h:3" true false [] (ty ":int");
                   Unknown "var"]
                  initial s' eq_refl) as (Ht & Htt & Hg & _)
  end.
  repeat split; try assumption; apply Hg.
Defined.

(** ** The tally of unknown tags *)

Lemma step_unknowns symbols x s s' t :
  step symbols x s = Ok s' →
  (∀ u n, unknowns s !! u = Some n → 0 < n) →
  default 0 (unknowns s' !! t)
    = default 0 (unknowns s !! t) + (if is_unknown t x then 1 else 0) ∧
  (∀ u n, unknowns s' !! u = Some n → 0 < n).
Proof.
  intros H Hpos. destruct x as [n l ty0|n l fs|n l v i ps r|u].
  - cbn [step] in H. apply typedef_case_frame in H as (_ & _ & -> & _).
    cbn. split; [lia|exact Hpos].
  - cbn [step] in H. apply typedef_case_frame in H as (_ & _ & -> & _).
    cbn. split; [lia|exact Hpos].
  - cbn [step] in H. apply function_case_inv in H as (_ & _ & -> & _).
    cbn. split; [lia|exact Hpos].
  - injection H as <-. cbn. split.
    + destruct (String.eqb_spec u t) as [->|Hne].
      * now rewrite lookup_insert_eq.
      * rewrite lookup_insert_ne by exact Hne. lia.
    + intros w n. destruct (decide (u = w)) as [->|Hne].
      * rewrite lookup_insert_eq. intros [= <-].
        destruct (unknowns s !! w) as [m|] eqn:Ew; cbn; [|lia].
        specialize (Hpos w m Ew). lia.
      * rewrite lookup_insert_ne by exact Hne. apply Hpos.
Qed.

(** X9: after a run that returns, the tally of a tag is the number of
    definitions of the input that bear it and that are neither typedef,
    struct nor function; a tag that never occurred has no entry, and no
    entry is zero. *)
Theorem run_unknowns symbols s' t :
  run symbols = Ok s' →
  unknowns s' !! t =
    (if decide (count (is_unknown t) symbols = 0) then None
     else Some (count (is_unknown t) symbols)).
Proof.
  unfold run. intros Hrun.
  assert (∀ xs s,
            (∀ u n, unknowns s !! u = Some n → 0 < n) →
            run_from symbols s xs = Ok s' →
            default 0 (unknowns s' !! t)
              = default 0 (unknowns s !! t) + count (is_unknown t) xs ∧
            (∀ u n, unknowns s' !! u = Some n → 0 < n)) as Hgen.
  { induction xs as [|x xs IH]; intros s Hpos; cbn [run_from count].
    - intros [= <-]. split; [lia|exact Hpos].
    - destruct (step symbols x s) as [s1|e] eqn:E; cbn; [|discriminate].
      intros H. destruct (step_unknowns _ _ _ _ t E Hpos) as [E1 Hpos1].
      destruct (IH s1 Hpos1 H) as [E2 Hpos2]. split; [lia|exact Hpos2]. }
  destruct (Hgen symbols initial) as [Hsum Hpos]; [|exact Hrun|].
  { intros u n. cbn. rewrite lookup_empty. discriminate. }
  cbn in Hsum. rewrite lookup_empty in Hsum. cbn in Hsum.
  assert (count (is_unknown t) symbols = default 0 (unknowns s' !! t)) as ->
    by lia.
  destruct (unknowns s' !! t) as [n|] eqn:En; cbn.
  - specialize (Hpos t n En). destruct (decide (n = 0)); [lia|reflexivity].
  - destruct (decide (0 = 0)); [reflexivity|lia].
Qed.

(** X9, witness: two definitions tagged ["var"] and one tagged ["enum"]. *)
Lemma run_unknowns_witness :
  ∃ s', run [Unknown "var"; Unknown "enum"; Unknown "var"] = Ok s' ∧
        unknowns s' !! "var" = Some 2 ∧ unknowns s' !! "union" = None.
Proof.
  eexists. split; [reflexivity|]. split.
  - apply (run_unknowns [Unknown "var"; Unknown "enum"; Unknown "var"]).
    reflexivity.
  - apply (run_unknowns [Unknown "var"; Unknown "enum"; Unknown "var"]).
    reflexivity.
Defined.

(** ** Where the entries of the two tables come from *)

Lemma denoFFIParameter_not_void tbl p n :
  denoFFIParameter tbl p = Ok (Some n) → n ≠ void.
Proof.
  unfold denoFFIParameter. destruct (negb _); [discriminate|].
  destruct (denoFFIType tbl (p_type p)) as [[[]|]|e]; cbn; congruence.
Qed.

Lemma Forall2_not_void tbl params ns :
  Forall2 (λ p n, denoFFIParameter tbl p = Ok (Some n)) params ns →
  Forall (λ n, n ≠ void) ns.
Proof.
  induction 1 as [|p n params ns Hp _ IH]; constructor; [|exact IH].
  now apply (denoFFIParameter_not_void tbl p).
Qed.

(** X10: an entry of the symbol table at the end of a run either was there
    at its start or belongs to a function definition of that name in the
    run which is neither inline nor variadic: its documentation string is
    the name and the location of the definition, its parameters are the
    native types of the definition's parameters, in order and none of them
    [void], and its result is the native type of the return type, all
    mapped in one table. *)
Theorem symbol_table_provenance symbols xs s s' name e :
  run_from symbols s xs = Ok s' →
  symbolSource s' !! name = Some e →
  symbolSource s !! name = Some e ∨
  ∃ location params ret tbl,
    Function name location false false params ret ∈ xs ∧
    doc e = name ++ " @ " ++ location ∧
    Forall2 (λ p n, denoFFIParameter tbl p = Ok (Some n)) params (parameters e) ∧
    denoFFIType tbl ret = Ok (Some (result e)) ∧
    Forall (λ n, n ≠ void) (parameters e).
Proof.
  revert s. induction xs as [|x xs IH]; intros s; cbn [run_from].
  - intros [= <-] He. now left.
  - destruct (step symbols x s) as [s1|err] eqn:E; cbn; [|discriminate].
    intros Hrun He. destruct (IH s1 Hrun He) as [H1|H1].
    2:{ right. destruct H1 as (l & ps & r & tbl & Hin & Hrest).
        exists l, ps, r, tbl. split; [now right|exact Hrest]. }
    destruct x as [n l t|n l fs|n l v i ps r|t]; cbn [step] in E.
    + apply typedef_case_table in E as (_ & _ & Hs & _). left. congruence.
    + apply typedef_case_table in E as (_ & _ & Hs & _). left. congruence.
    + apply function_case_inv in E
        as (_ & _ & _ & _ & [[Hs _]|(-> & -> & ns & w & Hps & Hr & Hs & _)]).
      { left. congruence. }
      rewrite Hs in H1. destruct (decide (n = name)) as [->|Hne].
      * rewrite lookup_insert_eq in H1. injection H1 as <-. right.
        exists l, ps, r, (resolvedTypeDefs s). cbn.
        split; [left|]. repeat split; try assumption.
        now apply (Forall2_not_void (resolvedTypeDefs s) ps).
      * rewrite lookup_insert_ne in H1 by exact Hne. now left.
    + injection E as <-. now left.
Qed.

(** X10, witness: the entry of [strlen] after a run over its declaration. *)
Lemma symbol_table_provenance_witness :
  let strlen := Function "strlen" "string.h:5" false false
                  [MkParam "parameter" "s" (ty ":pointer")] (ty ":unsigned-long") in
  ∃ location, doc (MkForeignFunction [pointer] u64 "strlen @ string.h:5")
              = "strlen" ++ " @ " ++ location.
Proof.
  cbv zeta.
  destruct (symbol_table_provenance
              [Function "strlen" "string.h:5" false false
                 [MkParam "parameter" "s" (ty ":pointer")] (ty ":unsigned-long")]
              [Function "strlen" "string.h:5" false false
                 [MkParam "parameter" "s" (ty ":pointer")] (ty ":unsigned-long")]
              initial
              (incr_generated
                 (set_symbol "strlen"
                    (MkForeignFunction [pointer] u64 "strlen @ string.h:5")
                    (incr_total initial)))
              "strlen"
              (MkForeignFunction [pointer] u64 "strlen @ string.h:5")
              eq_refl eq_refl) as [H|(l & ps & r & tbl & _ & Hdoc & _)].
  - discriminate H.
  - exists l. exact Hdoc.
Defined.

Lemma step_emitted symbols x s s' :
  step symbols x s = Ok s' →
  (emitted s ≤ emitted s')%nat ∧
  Z.of_nat (emitted s') - Z.of_nat (emitted s) ≤ generated s' - generated s.
Proof.
  unfold emitted. destruct x as [n l t|n l fs|n l v i ps r|t]; cbn [step]; intros H.
  - apply typedef_case_table in H as (_ & _ & -> & _ & ->). lia.
  - apply typedef_case_table in H as (_ & _ & -> & _ & ->). lia.
  - apply function_case_inv in H
      as (_ & _ & _ & _ & [[-> ->]|(_ & _ & ns & w & _ & _ & -> & ->)]); [lia|].
    rewrite map_size_insert. destruct (symbolSource s !! n); cbn; lia.
  - injection H as <-. cbn. lia.
Qed.

(** X11: over a run that returns, the symbol table never loses an entry,
    and it gains no more entries than [generated] grows: the artifact of a
    whole run lists at most [generated] symbols. *)
Theorem emitted_le_generated symbols xs s s' :
  run_from symbols s xs = Ok s' →
  (emitted s ≤ emitted s')%nat ∧
  Z.of_nat (emitted s') - Z.of_nat (emitted s) ≤ generated s' - generated s.
Proof.
  revert s. induction xs as [|x xs IH]; intros s; cbn [run_from].
  - intros [= <-]. lia.
  - destruct (step symbols x s) as [s1|e] eqn:E; cbn; [|discriminate].
    intros H. apply IH in H. apply step_emitted in E. lia.
Qed.

(** X11, witness: two declarations of [f] and one of [g]. *)
Lemma emitted_le_generated_witness :
  let symbols := [Function "f" "a.h:1" false false [] (ty ":int");
                  Function "g" "a.h:2" false false [] (ty ":int");
                  Function "f" "a.h:3" false false [] (ty ":void")] in
  ∃ s', run symbols = Ok s' ∧ Z.of_nat (emitted s') ≤ generated s'.
Proof.
  cbv zeta. eexists. split; [reflexivity|].
  match goal with
  | |- Z.of_nat (emitted ?s') ≤ _ =>
      destruct (emitted_le_generated
                  [Function "f" "a.h:1" false false [] (ty ":int");
                   Function "g" "a.h:2" false false [] (ty ":int");
                   Function "f" "a.h:3" false false [] (ty ":void")]
                  [Function "f" "a.h:1" false false [] (ty ":int");
                   Function "g" "a.h:2" false false [] (ty ":int");
                   Function "f" "a.h:3" false false [] (ty ":void")]
                  initial s' eq_refl) as [_ H]
  end.
  change (emitted initial) with (size (∅ : gmap string ForeignFunction)) in H.
  rewrite map_size_empty in H. change (generated initial) with 0 in H. lia.
Defined.

(** X12: a name bound in the resolved-typedef table at the end of a run
    either was bound at its start or is the name of a typedef or struct
    definition of the run; functions and unknown tags bind nothing. *)
Theorem table_provenance symbols xs s s' k :
  run_from symbols s xs = Ok s' →
  k ∈ dom (resolvedTypeDefs s') →
  k ∈ dom (resolvedTypeDefs s) ∨ ∃ x, x ∈ xs ∧ table_key x = Some k.
Proof.
  revert s. induction xs as [|x xs IH]; intros s; cbn [run_from].
  - intros [= <-] Hk. now left.
  - destruct (step symbols x s) as [s1|e] eqn:E; cbn; [|discriminate].
    intros Hrun Hk. destruct (IH s1 Hrun Hk) as [H1|(y & Hy & Hkey)].
    2:{ right. exists y. split; [now right|exact Hkey]. }
    destruct (decide (table_key x = Some k)) as [Hx|Hx].
    + right. exists x. split; [left|exact Hx].
    + left. apply step_table in E as [_ Hsame].
      apply elem_of_dom. rewrite <- (Hsame k Hx). now apply elem_of_dom.
Qed.

(** X12, witness: [size_t] is bound after a run over its typedef. *)
Lemma table_provenance_witness :
  let symbols := [Function "f" "a.h:1" false false [] (ty ":int");
                  Typedef "size_t" "a.h:2" (ty ":unsigned-long")] in
  ∃ x, x ∈ symbols ∧ table_key x = Some "size_t".
Proof.
  cbv zeta.
  destruct (table_provenance
              [Function "f" "a.h:1" false false [] (ty ":int");
               Typedef "size_t" "a.h:2" (ty ":unsigned-long")]
              [Function "f" "a.h:1" false false [] (ty ":int");
               Typedef "size_t" "a.h:2" (ty ":unsigned-long")]
              initial
              (incr_generatedTypeDefs
                 (set_resolved "size_t" u64
                    (incr_totalTypeDefs
                       (incr_generated
                          (set_symbol "f"
                             (MkForeignFunction [] i32 "f @ a.h:1")
                             (incr_total initial))))))
              "size_t" eq_refl) as [H|H].
  - apply elem_of_dom. cbn. rewrite lookup_insert_eq. eauto.
  - cbn in H. rewrite dom_empty in H. now apply not_elem_of_empty in H.
  - exact H.
Defined.

(** ** When a function is generated *)

(** X13: the step of a function definition returns with [generated] raised
    exactly when the function is neither variadic nor inline, every
    parameter is tagged ["parameter"] and the mapper returns for it a value
    that is neither [null] nor [void], and it returns a value other than
    [null] for the return type; the entry then holds the values of the
    parameters in declared order.  Such a value is of the native vocabulary
    or a function the fixed table inherits. *)
Theorem function_generated_iff symbols name location variadic inline params ret s :
  ((∃ s', step symbols (Function name location variadic inline params ret) s = Ok s' ∧
          generated s' = generated s + 1) ↔
   (variadic = false ∧ inline = false ∧
    ∃ ns v,
      Forall2 (λ p n, denoFFIParameter (resolvedTypeDefs s) p = Ok (Some n)) params ns ∧
      denoFFIType (resolvedTypeDefs s) ret = Ok (Some v))) ∧
  (∀ s' ns v,
     step symbols (Function name location variadic inline params ret) s = Ok s' →
     Forall2 (λ p n, denoFFIParameter (resolvedTypeDefs s) p = Ok (Some n)) params ns →
     denoFFIType (resolvedTypeDefs s) ret = Ok (Some v) →
     variadic = false → inline = false →
     symbolSource s' !! name
       = Some (MkForeignFunction ns v (name ++ " @ " ++ location)) ∧
     length ns = length params).
Proof.
  cbn [step]. split; [split|].
  - intros (s' & E & Hg).
    apply function_case_inv in E
      as (_ & _ & _ & _ & [[_ Hg']|(-> & -> & ns & v & Hps & Hr & _)]); [lia|].
    eauto 6.
  - intros (-> & -> & ns & v & Hps & Hr).
    destruct (function_case_generated name location params ret s ns v Hps Hr)
      as (s' & E & _ & _ & Hg & _). eauto.
  - intros s' ns v E Hps Hr -> ->.
    destruct (function_case_generated name location params ret s ns v Hps Hr)
      as (s'' & E' & Hs & _). rewrite E in E'. injection E' as <-.
    split; [rewrite Hs; apply lookup_insert_eq|].
    symmetry. now apply Forall2_length in Hps.
Qed.

(** X13, witness: [int add(int a, int b)], and a function whose return
    type is named [toString]. *)
Lemma function_generated_iff_witness :
  let params := [MkParam "parameter" "a" (ty ":int");
                 MkParam "parameter" "b" (ty ":int")] in
  (∃ s', step [] (Function "add" "a.h:1" false false params (ty ":int")) initial
           = Ok s' ∧ generated s' = generated initial + 1) ∧
  (∃ s', step [] (Function "show" "a.h:2" false false [] (ty "toString")) initial
           = Ok s' ∧ generated s' = generated initial + 1).
Proof.
  cbv zeta. split.
  - apply (function_generated_iff [] "add" "a.h:1" false false
             [MkParam "parameter" "a" (ty ":int");
              MkParam "parameter" "b" (ty ":int")] (ty ":int") initial).
    split; [reflexivity|]. split; [reflexivity|].
    exists [i32; i32], i32. split; [repeat constructor|reflexivity].
  - apply (function_generated_iff [] "show" "a.h:2" false false
             [] (ty "toString") initial).
    split; [reflexivity|]. split; [reflexivity|].
    exists [], (Inherited toString). split; [constructor|reflexivity].
Defined.

(** ** The text of an entry of the artifact *)

Lemma string_app_assoc (a b c : string) : (a ++ b) ++ c = a ++ (b ++ c).
Proof.
  induction a as [|ch a IH]; [reflexivity|].
  change (String ch ((a ++ b) ++ c) = String ch (a ++ (b ++ c))).
  now rewrite IH.
Qed.

(** Induction on a value through the components of an aggregate. *)
Lemma NativeResultType_components_ind (P : NativeResultType → Prop) :
  (∀ v, (∀ l, v = Struct l → Forall P l) → P v) → ∀ v, P v.
Proof.
  intros step. fix IH 1. intros v. apply step.
  destruct v as [| | | | | | | | | | |l|m]; try discriminate.
  assert (Forall P l) as HF.
  { revert l. fix go 1. intros [|n l]; constructor; [apply IH|apply go]. }
  intros ? [= <-]. exact HF.
Qed.

(** The text of a value opens with a double quote, a brace or an [n]. *)
Lemma JSON_stringify_head v :
  ∃ c rest, JSON_stringify v = String c rest ∧ c ≠ "]"%char ∧ c ≠ ","%char.
Proof.
  destruct v; cbn; eexists _, _; (split; [reflexivity|split; discriminate]).
Qed.

Lemma concat_JSON_rest xs x r :
  String.concat "," (JSON_stringify x :: map JSON_stringify xs) ++ "]" ++ r
    = JSON_stringify x ++ JSON_rest xs r.
Proof.
  revert x. induction xs as [|y ys IH]; intros x; [reflexivity|].
  cbn [map fold_right]. rewrite <- IH.
  change (String.concat "," (JSON_stringify x :: JSON_stringify y :: map JSON_stringify ys))
    with (JSON_stringify x ++ "," ++
          String.concat "," (JSON_stringify y :: map JSON_stringify ys)).
  now rewrite !string_app_assoc.
Qed.

Lemma concat_JSON_elements l r :
  String.concat "," (map JSON_stringify l) ++ "]" ++ r =
    match l with
    | [] => "]" ++ r
    | x :: xs => JSON_stringify x ++ JSON_rest xs r
    end.
Proof. destruct l as [|x xs]; [reflexivity|apply concat_JSON_rest]. Qed.

Lemma append_String c (a b : string) : String c a ++ b = String c (a ++ b).
Proof. reflexivity. Qed.

Lemma append_Empty (b : string) : EmptyString ++ b = b.
Proof. reflexivity. Qed.

Section JSONText.
(** The text of [v] can be split off any text that starts with it, and
    tells [v] up to the inherited functions in it. *)
Let splits (v : NativeResultType) : Prop :=
  ∀ w r1 r2,
    JSON_stringify v ++ r1 = JSON_stringify w ++ r2 →
    forget v = forget w ∧ r1 = r2.

Lemma JSON_rest_inj l :
  Forall splits l →
  ∀ l' r1 r2, JSON_rest l r1 = JSON_rest l' r2 →
              map forget l = map forget l' ∧ r1 = r2.
Proof.
  induction 1 as [|x xs Hx _ IH]; intros [|y ys] r1 r2;
    cbn [fold_right]; rewrite ?append_String, ?append_Empty; intros H;
    try discriminate.
  - injection H as ->. split; reflexivity.
  - injection H as H. apply Hx in H as [Hxy H].
    apply IH in H as [Hl ->]. cbn [map]. rewrite Hxy, Hl. split; reflexivity.
Qed.

Lemma JSON_elements_inj l :
  Forall splits l →
  ∀ l' r1 r2,
    String.concat "," (map JSON_stringify l) ++ "]" ++ r1
      = String.concat "," (map JSON_stringify l') ++ "]" ++ r2 →
    map forget l = map forget l' ∧ r1 = r2.
Proof.
  intros Hl l' r1 r2. rewrite !concat_JSON_elements.
  destruct l as [|x xs], l' as [|y ys]; intros H.
  - rewrite ?append_String, ?append_Empty in H.
    injection H as ->. split; reflexivity.
  - destruct (JSON_stringify_head y) as (c & rest & E & Hc & _).
    rewrite E in H. rewrite ?append_String, ?append_Empty in H. congruence.
  - destruct (JSON_stringify_head x) as (c & rest & E & Hc & _).
    rewrite E in H. rewrite ?append_String, ?append_Empty in H. congruence.
  - inversion Hl as [|? ? Hx Hxs]; subst.
    apply Hx in H as [Hxy H]. apply (JSON_rest_inj xs Hxs) in H as [Hrest ->].
    cbn [map]. rewrite Hxy, Hrest. split; reflexivity.
Qed.

Lemma JSON_stringify_splits v : splits v.
Proof.
  induction v as [v IH] using NativeResultType_components_ind.
  intros w r1 r2 H.
  destruct v as [| | | | | | | | | | |l|m].
  1-11: destruct w; vm_compute in H; try discriminate H;
        split; [reflexivity|congruence].
  - destruct w as [| | | | | | | | | | |l'|m'];
      try (vm_compute in H; discriminate H).
    specialize (IH l eq_refl).
    cbn [JSON_stringify] in H. unfold dquote in H.
    rewrite !string_app_assoc in H.
    rewrite ?append_String, ?append_Empty in H.
    repeat (injection H as H).
    apply (JSON_elements_inj l IH) in H as [Hl H].
    rewrite ?append_String, ?append_Empty in H.
    injection H as ->. cbn [forget]. rewrite Hl. split; reflexivity.
  - destruct w as [| | | | | | | | | | |l'|m'];
      try (vm_compute in H; discriminate H).
    cbn [JSON_stringify] in H. rewrite ?append_String, ?append_Empty in H.
    split; [reflexivity|congruence].
Qed.
End JSONText.

Lemma JSON_stringify_forget v : JSON_stringify (forget v) = JSON_stringify v.
Proof.
  induction v as [v IH] using NativeResultType_components_ind.
  destruct v as [| | | | | | | | | | |l|m]; try reflexivity.
  specialize (IH l eq_refl). cbn [forget JSON_stringify].
  assert (map JSON_stringify (map forget l) = map JSON_stringify l) as ->;
    [|reflexivity].
  induction IH as [|x xs Hx _ IHxs]; [reflexivity|].
  cbn [map]. now rewrite Hx, IHxs.
Qed.

Lemma JSON_stringify_array_forget ps :
  JSON_stringify_array (map forget ps) = JSON_stringify_array ps.
Proof.
  unfold JSON_stringify_array.
  assert (map JSON_stringify (map forget ps) = map JSON_stringify ps) as ->;
    [|reflexivity].
  induction ps as [|x xs IH]; [reflexivity|].
  cbn [map]. now rewrite JSON_stringify_forget, IH.
Qed.

Lemma forget_native v : native v = true → forget v = v.
Proof.
  induction v as [v IH] using NativeResultType_components_ind.
  destruct v as [| | | | | | | | | | |l|m]; try reflexivity; [|discriminate].
  specialize (IH l eq_refl). cbn [native forget]. intros H. f_equal.
  induction IH as [|x xs Hx _ IHxs]; [reflexivity|].
  cbn in H. apply andb_prop in H as [H1 H2]. cbn [map].
  now rewrite (Hx H1), (IHxs H2).
Qed.

Lemma map_forget_native ps :
  Forall (λ v, native v = true) ps → map forget ps = ps.
Proof.
  induction 1 as [|x xs Hx _ IH]; [reflexivity|].
  cbn [map]. now rewrite (forget_native x Hx), IH.
Qed.

Lemma template_followed_by_quote r r' rest :
  template r ++ dquote ++ rest = template r' ++ dquote ++ rest →
  template r = template r'.
Proof.
  destruct r as [| | | | | | | | | | |a|m], r' as [| | | | | | | | | | |b|m'];
    intros H; try reflexivity; try (vm_compute in H; discriminate H).
  destruct m, m'; try reflexivity; vm_compute in H; discriminate H.
Qed.

(** X15: in the text of an entry of the artifact the parameter list
    determines the parameters up to the inherited functions in them, which
    all print as [null]; so it determines parameters of the native
    vocabulary, aggregates included.  The result is printed through a
    template literal, so the text determines it except among the
    aggregates: every aggregate result prints as [[object Object]],
    whatever its components.  Two entries of one name and documentation
    string have the same text exactly when they agree on the parameters,
    up to inherited functions, and on the printed result. *)
Theorem artifact_entry_text :
  (∀ ps ps', JSON_stringify_array ps = JSON_stringify_array ps' ↔
             map forget ps = map forget ps') ∧
  (∀ ps ps', Forall (λ v, native v = true) ps →
             Forall (λ v, native v = true) ps' →
             JSON_stringify_array ps = JSON_stringify_array ps' → ps = ps') ∧
  (∀ r r', template r = template r' ↔
           r = r' ∨ ∃ a b, r = Struct a ∧ r' = Struct b) ∧
  (∀ name d ps ps' r r',
     render_entry name (MkForeignFunction ps r d)
       = render_entry name (MkForeignFunction ps' r' d) ↔
     map forget ps = map forget ps' ∧ template r = template r') ∧
  (∀ name d ps ps' r r',
     Forall (λ v, native v = true) ps →
     Forall (λ v, native v = true) ps' →
     (render_entry name (MkForeignFunction ps r d)
        = render_entry name (MkForeignFunction ps' r' d) ↔
      ps = ps' ∧ template r = template r')).
Proof.
  assert (∀ ps ps' r1 r2,
            JSON_stringify_array ps ++ r1 = JSON_stringify_array ps' ++ r2 →
            map forget ps = map forget ps' ∧ r1 = r2) as Harr.
  { intros ps ps' r1 r2 H. unfold JSON_stringify_array in H.
    rewrite !string_app_assoc in H. apply String.app_inj in H.
    apply JSON_elements_inj in H; [exact H|].
    apply Forall_forall. intros v _. apply JSON_stringify_splits. }
  assert (∀ ps ps', JSON_stringify_array ps = JSON_stringify_array ps' ↔
                    map forget ps = map forget ps') as Hjson.
  { intros ps ps'. split.
    - intros H.
      destruct (Harr ps ps' EmptyString EmptyString) as [E _]; [|exact E].
      now rewrite H.
    - intros H. rewrite <- (JSON_stringify_array_forget ps), H.
      apply JSON_stringify_array_forget. }
  assert (∀ name d ps ps' r r',
            render_entry name (MkForeignFunction ps r d)
              = render_entry name (MkForeignFunction ps' r' d) ↔
            map forget ps = map forget ps' ∧ template r = template r')
    as Hrender.
  { intros name d ps ps' r r'. unfold render_entry.
    cbn [doc parameters result]. split.
    - intros H. do 8 apply String.app_inj in H.
      rewrite <- !string_app_assoc in H. rewrite !string_app_assoc in H.
      apply Harr in H as [E H]. split; [exact E|].
      do 3 apply String.app_inj in H. apply String.app_inj in H.
      now apply template_followed_by_quote in H.
    - intros [E ->]. apply Hjson in E. now rewrite E. }
  split; [exact Hjson|]. split; [|split; [|split; [exact Hrender|]]].
  - intros ps ps' Hn Hn' H. apply Hjson in H.
    now rewrite (map_forget_native ps Hn), (map_forget_native ps' Hn') in H.
  - intros r r'. split.
    + intros H.
      destruct r as [| | | | | | | | | | |a|m],
               r' as [| | | | | | | | | | |b|m'];
        try (left; reflexivity); try (right; eauto; fail);
        try (vm_compute in H; discriminate H).
      destruct m, m'; try (left; reflexivity); vm_compute in H; discriminate H.
    + intros [->|(a & b & -> & ->)]; reflexivity.
  - intros name d ps ps' r r' Hn Hn'. rewrite Hrender.
    now rewrite (map_forget_native ps Hn), (map_forget_native ps' Hn').
Qed.

(** X15, witness: two results that are different aggregates give one
    text. *)
Lemma artifact_entry_text_witness :
  render_entry "origin" (MkForeignFunction [pointer] (Struct [i32; i32]) "origin @ a.h:1")
    = render_entry "origin" (MkForeignFunction [pointer] (Struct [f64]) "origin @ a.h:1").
Proof.
  destruct artifact_entry_text as (_ & _ & _ & _ & H).
  apply H; [repeat constructor..|]. split; reflexivity.
Defined.

(** ** The order of the definitions *)

Lemma denoFFIParameter_named tbl pname n fs nested :
  is_struct_tag n = false → tagMapping n = None →
  tbl !! n ≠ Some void →
  denoFFIParameter tbl (MkParam "parameter" pname (MkType n fs nested))
    = Ok (tbl !! n).
Proof.
  intros Hs Hm Hv. unfold denoFFIParameter. cbn [p_tag p_type p_name].
  rewrite denoFFIType_unfold. cbn [tag]. rewrite Hs, Hm.
  change (negb ("parameter" =? "parameter")%string) with false. cbn.
  destruct (tbl !! n) as [[]|]; congruence.
Qed.

(** X16: the loop does not reorder its input.  A function with a parameter
    of a typedef's name, a name under which the fixed table gives nothing,
    neither an own entry nor an inherited function, is skipped when it
    stands before the typedef that resolves the name, and generated, with
    the typedef's type for the parameter, when it stands after it. *)
Theorem definition_order_matters symbols s n tloc ttype v
    fname floc pname fs nested ret r :
  is_struct_tag n = false → tagMapping n = None →
  resolvedTypeDefs s !! n = None →
  denoFFIType (resolvedTypeDefs s) ttype = Ok (Some v) → v ≠ void →
  denoFFIType (resolvedTypeDefs s) ret = Ok (Some r) →
  (∃ s1, run_from symbols s
           [Function fname floc false false
              [MkParam "parameter" pname (MkType n fs nested)] ret;
            Typedef n tloc ttype] = Ok s1 ∧
         symbolSource s1 = symbolSource s ∧
         generated s1 = generated s ∧
         resolvedTypeDefs s1 !! n = Some v) ∧
  (∃ s2, run_from symbols s
           [Typedef n tloc ttype;
            Function fname floc false false
              [MkParam "parameter" pname (MkType n fs nested)] ret] = Ok s2 ∧
         symbolSource s2 !! fname
           = Some (MkForeignFunction [v] r (fname ++ " @ " ++ floc)) ∧
         generated s2 = generated s + 1).
Proof.
  intros Hs Hm Hn Ht Hv Hr. split.
  - assert (mapM (denoFFIParameter (resolvedTypeDefs s))
              [MkParam "parameter" pname (MkType n fs nested)] = Ok [None])
      as Hmap.
    { rewrite mapM_cons,
        (denoFFIParameter_named _ pname n fs nested Hs Hm)
        by (rewrite Hn; discriminate).
      now rewrite Hn. }
    cbn [run_from step]. unfold function_case. cbn [orb].
    change (resolvedTypeDefs (incr_total s)) with (resolvedTypeDefs s).
    rewrite Hmap. cbn.
    rewrite typedef_case_direct with (v := v) by exact Ht.
    eexists. split; [reflexivity|]. cbn. repeat split.
    apply lookup_insert_eq.
  - cbn [run_from step].
    rewrite typedef_case_direct with (v := v) by exact Ht.
    cbn [mbind Result_bind].
    match goal with
    | |- context [function_case _ _ _ _ ?ps _ ?sT] =>
        destruct (function_case_generated fname floc ps ret sT [v] r)
          as (s2 & E & Hsym & _ & Hg & _)
    end.
    + constructor; [|constructor].
      rewrite (denoFFIParameter_named _ pname n fs nested Hs Hm);
        cbn; rewrite lookup_insert_eq; congruence.
    + cbn.
      destruct (denoFFIType_mapped_rel eq (resolvedTypeDefs s)
                  (<[n:=v]> (resolvedTypeDefs s)))
        with (t := ret) (v := r) as (r' & Hr' & <-); try assumption.
      * reflexivity.
      * intros ns ns' H. f_equal. induction H; congruence.
      * intros k w Hk. exists w. split; [|reflexivity].
        rewrite lookup_insert_ne; [exact Hk|]. congruence.
    + exists s2. rewrite E. split; [reflexivity|]. split.
      * rewrite Hsym. apply lookup_insert_eq.
      * rewrite Hg. reflexivity.
Qed.

(** X16, witness: [int f(size_t n)] before and after
    [typedef unsigned long size_t]. *)
Lemma definition_order_matters_witness :
  let f := Function "f" "a.h:1" false false
             [MkParam "parameter" "n" (ty "size_t")] (ty ":int") in
  let t := Typedef "size_t" "a.h:2" (ty ":unsigned-long") in
  (∃ s1, run [f; t] = Ok s1 ∧ generated s1 = 0) ∧
  (∃ s2, run [t; f] = Ok s2 ∧ generated s2 = 1).
Proof.
  cbv zeta.
  destruct (definition_order_matters [] initial "size_t" "a.h:2"
              (ty ":unsigned-long") u64 "f" "a.h:1" "n" None None (ty ":int") i32)
    as [(s1 & E1 & _ & Hg1 & _) (s2 & E2 & _ & Hg2)];
    try reflexivity; try discriminate.
  split; eexists; (split; [reflexivity|]); reflexivity.
Defined.

(** ** Struct definitions and typedefs of a struct type *)

Lemma denoFFIType_nested_irrelevant tbl tg fs nested nested' :
  denoFFIType tbl (MkType tg fs nested) = denoFFIType tbl (MkType tg fs nested').
Proof. now rewrite !denoFFIType_unfold. Qed.

Lemma denoFFIType_log_nested_irrelevant tbl hint tg fs nested nested' :
  denoFFIType_log tbl hint (MkType tg fs nested)
    = denoFFIType_log tbl hint (MkType tg fs nested').
Proof. now rewrite !denoFFIType_log_unfold. Qed.

(** A struct definition is handled exactly as the typedef of its name
    whose type is the struct type with the same field list: from the same
    state both steps give the same outcome, state or exception. *)
Theorem struct_as_typedef symbols name loc loc' fs nested s :
  step symbols (StructDef name loc fs) s
    = step symbols (Typedef name loc' (MkType "struct" fs nested)) s.
Proof.
  cbn [step]. unfold typedef_case, struct_as_type. cbn [tag].
  rewrite (denoFFIType_nested_irrelevant _ "struct" fs None nested).
  now rewrite (denoFFIType_log_nested_irrelevant _ _ "struct" fs None nested).
Qed.
